(** * liberasurecode API helpers (src/erasurecode_helpers.c)

    A shallow embedding of the fragment-buffer helpers of liberasurecode:
    the aligned allocator, the fragment buffer lifecycle, the header
    accessors and the data alignment calculator, together with the
    properties of them that the specification states.

    The C code works on raw memory, so the embedding is a state-and-fault
    monad over an explicit memory: heap objects are byte lists addressed by
    (block, offset) pointers, and every access outside a live object is a
    fault (undefined behaviour in C). *)

From Stdlib Require Import ZArith Lia List Bool.
From Stdlib Require Import Strings.Byte Strings.Ascii.
From Stdlib Require Import Floats.SpecFloat.
From stdpp Require Import base option list gmap strings.

Open Scope Z_scope.

(** ** C integer types

    [int] is 32 bits, [size_t] and [uint64_t] are 64 bits (LP64). *)

Module CInt.

Definition INT_MIN : Z := - 2 ^ 31.
Definition INT_MAX : Z := 2 ^ 31 - 1.

Definition int_range (z : Z) : Prop := INT_MIN <= z <= INT_MAX.

Definition int_rangeb (z : Z) : bool := (INT_MIN <=? z) && (z <=? INT_MAX).

(** Conversion to [uint32_t]: reduction modulo 2^32. *)
Definition to_uint32 (z : Z) : Z := z mod 2 ^ 32.

(** Conversion to [int]: the value itself when it fits, otherwise the
    implementation-defined result of gcc and clang (two's complement
    wrap-around). *)
Definition to_int (z : Z) : Z := (z + 2 ^ 31) mod 2 ^ 32 - 2 ^ 31.

(** Conversion to [size_t] / [uint64_t]: reduction modulo 2^64. *)
Definition to_size_t (z : Z) : Z := z mod 2 ^ 64.

End CInt.
Export CInt.

(** ** Memory

    A pointer is a block identifier and a byte offset inside that block.
    Block 0 is the region of addresses that belong to no object; the null
    pointer is its offset 0.  Pointer arithmetic moves the offset and never
    changes the block. *)

Inductive ptr : Type := Ptr (b : nat) (ofs : Z).

Definition NULL : ptr := Ptr 0 0.

Definition ptr_eqb (p q : ptr) : bool :=
  match p, q with
  | Ptr b1 o1, Ptr b2 o2 => Nat.eqb b1 b2 && (o1 =? o2)
  end.

(** [p + n] on a [char *]. *)
Definition ptr_add (p : ptr) (n : Z) : ptr :=
  match p with Ptr b o => Ptr b (o + n) end.

(** [p - n] on a [char *]. *)
Definition ptr_sub (p : ptr) (n : Z) : ptr :=
  match p with Ptr b o => Ptr b (o - n) end.

(** The content of one byte of an object: not written yet, or a byte. *)
Inductive memval : Type :=
  | Undef
  | Byte (b : byte).

(** The state the helpers run in:
    - [heap]: the live heap objects, by block;
    - [arrays]: the live arrays of [char *] (the [char **] arguments of
      [get_data_ptr_array_from_fragments] point into them), by array;
    - [avail]: the number of bytes the allocator can still hand out;
    - [errlog]: the messages passed to [log_error], oldest first. *)
Record mem : Type := Mem {
  heap : gmap nat (list memval);
  arrays : gmap nat (list ptr);
  avail : Z;
  errlog : list string
}.

Definition set_heap (h : gmap nat (list memval)) (m : mem) : mem :=
  Mem h (arrays m) (avail m) (errlog m).

Definition set_arrays (a : gmap nat (list ptr)) (m : mem) : mem :=
  Mem (heap m) a (avail m) (errlog m).

Definition set_avail (n : Z) (m : mem) : mem :=
  Mem (heap m) (arrays m) n (errlog m).

(** ** The monad of C computations *)

Inductive fault : Type :=
  | UndefinedBehaviour   (* the C standard gives the execution no meaning *)
  | AssertionFailure.    (* [assert] aborted the process *)

Inductive res (A : Type) : Type :=
  | Ok (a : A) (m : mem)
  | Stuck (f : fault).
Arguments Ok {A} a m.
Arguments Stuck {A} f.

Definition comp (A : Type) : Type := mem -> res A.

Definition ret {A} (a : A) : comp A := fun m => Ok a m.

Definition bind {A B} (c : comp A) (k : A -> comp B) : comp B :=
  fun m => match c m with
           | Ok a m' => k a m'
           | Stuck f => Stuck f
           end.

Definition undefined {A} : comp A := fun _ => Stuck UndefinedBehaviour.

Definition abort {A} : comp A := fun _ => Stuck AssertionFailure.

Declare Scope comp_scope.
Delimit Scope comp_scope with comp.
Notation "'do' x <- c ; k" := (bind c (fun x => k))
  (at level 10, x name, c at level 100, k at level 200) : comp_scope.
Notation "'run' c ; k" := (bind c (fun _ => k))
  (at level 10, c at level 100, k at level 200) : comp_scope.
Open Scope comp_scope.

(** [assert(e)]. *)
Definition assert (e : bool) : comp unit :=
  if e then ret tt else abort.

(** The line feed that ends some of the diagnostics. *)
Definition LF : string := String "010"%char EmptyString.

(** [log_error(msg)]: the message is appended to the log, nothing else
    changes. *)
Definition log_error (msg : string) : comp unit :=
  fun m => Ok tt (Mem (heap m) (arrays m) (avail m) (errlog m ++ [msg])).

(** ** Bytes and 32-bit words in memory *)

Definition byte_of_Z (z : Z) : byte :=
  match Byte.of_N (Z.to_N (z mod 256)) with
  | Some b => b
  | None => x00
  end.

Definition Z_of_byte (b : byte) : Z := Z.of_N (Byte.to_N b).

(** The four bytes of a 32-bit word, least significant first. *)
Definition encode_u32 (v : Z) : list memval :=
  [ Byte (byte_of_Z v);
    Byte (byte_of_Z (v / 2 ^ 8));
    Byte (byte_of_Z (v / 2 ^ 16));
    Byte (byte_of_Z (v / 2 ^ 24)) ].

Definition decode_u32 (b0 b1 b2 b3 : byte) : Z :=
  Z_of_byte b0 + 2 ^ 8 * Z_of_byte b1 + 2 ^ 16 * Z_of_byte b2
  + 2 ^ 24 * Z_of_byte b3.

(** Bytes [i .. i+3] of an object, read as a 32-bit word; [None] when one
    of them is outside the object or was never written. *)
Definition read_u32 (bytes : list memval) (i : nat) : option Z :=
  match bytes !! i, bytes !! (i + 1)%nat, bytes !! (i + 2)%nat,
        bytes !! (i + 3)%nat with
  | Some (Byte b0), Some (Byte b1), Some (Byte b2), Some (Byte b3) =>
      Some (decode_u32 b0 b1 b2 b3)
  | _, _, _, _ => None
  end.

(** The offset [ofs] and the [n] bytes after it lie inside an object of
    [len] bytes. *)
Definition in_bounds (ofs n : Z) (len : nat) : bool :=
  (0 <=? ofs) && (ofs + n <=? Z.of_nat len).

(** The [uint32_t] at address [p], when [p] and the three bytes after it
    lie in a live object and hold written bytes. *)
Definition peek_u32 (m : mem) (p : ptr) : option Z :=
  match p with
  | Ptr b ofs =>
      match heap m !! b with
      | Some bytes =>
          if in_bounds ofs 4 (length bytes)
          then read_u32 bytes (Z.to_nat ofs)
          else None
      | None => None
      end
  end.

(** The memory after the [uint32_t] at address [p] was overwritten with
    [v], when the four bytes lie in a live object. *)
Definition poke_u32 (m : mem) (p : ptr) (v : Z) : option mem :=
  match p with
  | Ptr b ofs =>
      match heap m !! b with
      | Some bytes =>
          if in_bounds ofs 4 (length bytes)
          then Some (set_heap
                       (<[b := list_inserts (Z.to_nat ofs) (encode_u32 v) bytes]>
                          (heap m)) m)
          else None
      | None => None
      end
  end.

(** Reading a [uint32_t] through a pointer. *)
Definition load_u32 (p : ptr) : comp Z :=
  fun m =>
    match peek_u32 m p with
    | Some v => Ok v m
    | None => Stuck UndefinedBehaviour
    end.

(** Writing a [uint32_t] through a pointer. *)
Definition store_u32 (p : ptr) (v : Z) : comp unit :=
  fun m =>
    match poke_u32 m p v with
    | Some m' => Ok tt m'
    | None => Stuck UndefinedBehaviour
    end.

(** ** The C library *)

Module Libc.

Definition ENOMEM : Z := 12.
Definition EINVAL : Z := 22.

(** The block the next allocation gets: one that holds no live object. *)
Definition fresh_block (m : mem) : nat :=
  fresh ({[ 0%nat ]} ∪ dom (heap m)).

(** An alignment [posix_memalign] accepts: a power of two that is a
    multiple of [sizeof(void * )]. *)
Definition valid_alignment (a : Z) : bool :=
  (0 <? a) && (a mod 8 =? 0) && (Z.land a (a - 1) =? 0).

(** [posix_memalign(&memptr, alignment, size)], as POSIX specifies it: on
    success it returns 0 and stores the address of a new object of [size]
    bytes, whose content is not initialised; on failure it returns the
    error number, a positive value, and leaves [memptr] as it was.  The
    first component is the return value, the second the value of [memptr]
    afterwards ([None] is the indeterminate value of a variable that was
    never assigned). *)
Definition posix_memalign (memptr : option ptr) (alignment size : Z)
  : comp (Z * option ptr) :=
  fun m =>
    if negb (valid_alignment alignment) then Ok (EINVAL, memptr) m
    else if size <=? avail m then
      let b := fresh_block m in
      Ok (0, Some (Ptr b 0))
         (set_avail (avail m - size)
            (set_heap (<[b := replicate (Z.to_nat size) Undef]> (heap m)) m))
    else Ok (ENOMEM, memptr) m.

(** [memset(s, c, n)]: the [n] bytes from [s] on become [(unsigned char) c].
    Using an indeterminate pointer, or leaving the object, is undefined. *)
Definition memset (s : option ptr) (c n : Z) : comp unit :=
  fun m =>
    match s with
    | Some (Ptr b ofs) =>
        match heap m !! b with
        | Some bytes =>
            if in_bounds ofs n (length bytes) && (0 <=? n) then
              Ok tt (set_heap
                       (<[b := list_inserts (Z.to_nat ofs)
                                 (replicate (Z.to_nat n) (Byte (byte_of_Z c)))
                                 bytes]> (heap m)) m)
            else Stuck UndefinedBehaviour
        | None => Stuck UndefinedBehaviour
        end
    | None => Stuck UndefinedBehaviour
    end.

(** [free(p)]: nothing for the null pointer; otherwise [p] must be the
    address an allocation returned, of an object that is still live. *)
Definition free (p : ptr) : comp unit :=
  fun m =>
    if ptr_eqb p NULL then Ok tt m
    else
      match p with
      | Ptr b ofs =>
          match heap m !! b with
          | Some bytes =>
              if ofs =? 0 then
                Ok tt (set_avail (avail m + Z.of_nat (length bytes))
                         (set_heap (delete b (heap m)) m))
              else Stuck UndefinedBehaviour
          | None => Stuck UndefinedBehaviour
          end
      end.

(** [malloc(size)]: the address of a new object of [size] bytes whose
    content is not initialised, or the null pointer, with nothing changed,
    when the allocator cannot serve the request. *)
Definition malloc (size : Z) : comp ptr :=
  fun m =>
    if size <=? avail m then
      let b := fresh_block m in
      Ok (Ptr b 0)
         (set_avail (avail m - size)
            (set_heap (<[b := replicate (Z.to_nat size) Undef]> (heap m)) m))
    else Ok NULL m.

End Libc.
Export Libc.

(** ** Arrays of [char *] *)

(** A [char **]: the array it points into and the entry of that array it
    points at.  Two such pointers into one array may be any number of
    entries apart, as [fragments] and [fragments + 1] are; a pointer whose
    array is not live (the null pointer among them) cannot be
    dereferenced. *)
Inductive pptr : Type := PPtr (a : nat) (pos : Z).

(** [p + n] on a [char **]. *)
Definition pptr_add (p : pptr) (n : Z) : pptr :=
  match p with PPtr a pos => PPtr a (pos + n) end.

(** [p[i]], read. *)
Definition load_ptr (p : pptr) (i : Z) : comp ptr :=
  fun m =>
    match p with
    | PPtr a pos =>
        match arrays m !! a with
        | Some l =>
            if 0 <=? pos + i then
              match l !! Z.to_nat (pos + i) with
              | Some q => Ok q m
              | None => Stuck UndefinedBehaviour
              end
            else Stuck UndefinedBehaviour
        | None => Stuck UndefinedBehaviour
        end
    end.

(** [p[i] = q]. *)
Definition store_ptr (p : pptr) (i : Z) (q : ptr) : comp unit :=
  fun m =>
    match p with
    | PPtr a pos =>
        match arrays m !! a with
        | Some l =>
            if (0 <=? pos + i) && (pos + i <? Z.of_nat (length l)) then
              Ok tt (set_arrays
                       (<[a := <[Z.to_nat (pos + i) := q]> l]> (arrays m)) m)
            else Stuck UndefinedBehaviour
        | None => Stuck UndefinedBehaviour
        end
    end.

(** ** The fragment header *)

Module Header.

(** Modelled from the spec: [fragment_header_t] is declared in
    erasurecode.h, which is not among the sources.  The spec's data model
    gives the record the fields magic, idx, size, orig_data_size and chksum,
    in this order, each an integer; they are taken as 32-bit words, as the
    [int] arguments and results of the accessors suggest, and the record is
    padded to 32 bytes so that the payload after it keeps the 16-byte
    alignment of the allocation. *)
Definition sizeof_fragment_header_t : Z := 32.

Definition off_magic : Z := 0.
Definition off_idx : Z := 4.
Definition off_size : Z := 8.
Definition off_orig_data_size : Z := 12.
Definition off_chksum : Z := 16.

End Header.
Export Header.

(** A whole header lies inside a live object at [buf]. *)
Definition has_header (m : mem) (buf : ptr) : bool :=
  match buf with
  | Ptr b ofs =>
      match heap m !! b with
      | Some bytes => in_bounds ofs sizeof_fragment_header_t (length bytes)
      | None => false
      end
  end.

(** The sentinel of the header at [buf], when it can be read. *)
Definition sentinel (m : mem) (buf : ptr) : option Z :=
  peek_u32 m (ptr_add buf off_magic).

(** ** Memory management and header accessors *)

Section Helpers.

(** The value of the macro [LIBERASURECODE_FRAG_HEADER_MAGIC], defined in a
    header that is not among the sources. *)
Variable MAGIC : Z.

(** [header->magic != LIBERASURECODE_FRAG_HEADER_MAGIC] *)
Definition magic_mismatch (header : ptr) : comp bool :=
  do magic <- load_u32 (ptr_add header off_magic);
  ret (negb (magic =? MAGIC)).

Definition get_aligned_buffer16 (size : Z) : comp ptr :=
  (* void *buf;  -- not initialised *)
  let buf : option ptr := None in
  do r <- posix_memalign buf 16 (to_size_t size);
  let '(rc, buf) := r in
  if rc <? 0 then ret NULL
  else
    run memset buf 0 (to_size_t size);
    match buf with
    | Some p => ret p
    | None => undefined
    end.

Definition alloc_fragment_buffer (size : Z) : comp ptr :=
  (* size += sizeof(fragment_header_t): computed in size_t, stored in int *)
  let size := to_int (to_size_t (to_size_t size + sizeof_fragment_header_t)) in
  do buf <- get_aligned_buffer16 size;
  if negb (ptr_eqb buf NULL) then
    let header := buf in
    run store_u32 (ptr_add header off_magic) (to_uint32 MAGIC);
    ret buf
  else ret buf.

Definition free_fragment_buffer (buf : ptr) : comp Z :=
  if ptr_eqb NULL buf then ret (-1)
  else
    let buf := ptr_sub buf sizeof_fragment_header_t in
    let header := buf in
    do bad <- magic_mismatch header;
    if bad then
      run log_error "Invalid fragment header (free fragment)!";
      ret (-1)
    else
      run free buf;
      ret 0.

(** The result type is [uint64_t]. *)
Definition get_fragment_size (buf : ptr) : comp Z :=
  if ptr_eqb NULL buf then ret (to_size_t (-1))
  else
    let header := buf in
    do size <- load_u32 (ptr_add header off_size);
    ret (to_size_t (size + sizeof_fragment_header_t)).

Definition get_data_ptr_from_fragment (buf : ptr) : ptr :=
  ptr_add buf sizeof_fragment_header_t.

(** The loop of [get_data_ptr_array_from_fragments], with [remaining]
    iterations to go, at index [i], having counted [num] fragments. *)
Fixpoint data_ptr_array_loop (remaining : nat)
    (data_array fragments : pptr) (i num : Z) : comp Z :=
  match remaining with
  | O => ret num
  | S remaining' =>
      do frag <- load_ptr fragments i;
      if ptr_eqb frag NULL then
        run store_ptr data_array i NULL;
        data_ptr_array_loop remaining' data_array fragments (i + 1) num
      else
        run store_ptr data_array i (get_data_ptr_from_fragment frag);
        data_ptr_array_loop remaining' data_array fragments (i + 1) (num + 1)
  end.

Definition get_data_ptr_array_from_fragments
    (data_array fragments : pptr) (num_fragments : Z) : comp Z :=
  data_ptr_array_loop (Z.to_nat num_fragments) data_array fragments 0 0.

Definition get_fragment_ptr_from_data_novalidate (buf : ptr) : ptr :=
  ptr_sub buf sizeof_fragment_header_t.

Definition get_fragment_ptr_from_data (buf : ptr) : comp ptr :=
  let buf := ptr_sub buf sizeof_fragment_header_t in
  let header := buf in
  do bad <- magic_mismatch header;
  if bad then
    run log_error
          (String.append "Invalid fragment header (get header ptr)!" LF);
    ret NULL
  else ret buf.

(** The header fields are 32-bit words: a setter stores the 32-bit pattern
    of its [int] argument, a getter converts the word it reads to [int]. *)

Definition set_fragment_idx (buf : ptr) (idx : Z) : comp Z :=
  let header := buf in
  run assert (negb (ptr_eqb NULL header));
  do bad <- magic_mismatch header;
  if bad then
    run log_error (String.append "Invalid fragment header (idx check)!" LF);
    ret (-1)
  else
    run store_u32 (ptr_add header off_idx) (to_uint32 idx);
    ret 0.

Definition get_fragment_idx (buf : ptr) : comp Z :=
  let header := buf in
  run assert (negb (ptr_eqb NULL header));
  do bad <- magic_mismatch header;
  if bad then
    run log_error "Invalid fragment header (get idx)!";
    ret (-1)
  else
    do v <- load_u32 (ptr_add header off_idx);
    ret (to_int v).

Definition set_fragment_payload_size (buf : ptr) (size : Z) : comp Z :=
  let header := buf in
  run assert (negb (ptr_eqb NULL header));
  do bad <- magic_mismatch header;
  if bad then
    run log_error "Invalid fragment header (size check)!";
    ret (-1)
  else
    run store_u32 (ptr_add header off_size) (to_uint32 size);
    ret 0.

Definition get_fragment_payload_size (buf : ptr) : comp Z :=
  let header := buf in
  run assert (negb (ptr_eqb NULL header));
  do bad <- magic_mismatch header;
  if bad then
    run log_error "Invalid fragment header (get size)!";
    ret (-1)
  else
    do v <- load_u32 (ptr_add header off_size);
    ret (to_int v).

Definition set_orig_data_size (buf : ptr) (orig_data_size : Z) : comp Z :=
  let header := buf in
  run assert (negb (ptr_eqb NULL header));
  do bad <- magic_mismatch header;
  if bad then
    run log_error "Invalid fragment header (set orig data check)!";
    ret (-1)
  else
    run store_u32 (ptr_add header off_orig_data_size) (to_uint32 orig_data_size);
    ret 0.

Definition get_orig_data_size (buf : ptr) : comp Z :=
  let header := buf in
  run assert (negb (ptr_eqb NULL header));
  do bad <- magic_mismatch header;
  if bad then
    run log_error "Invalid fragment header (get orig data check)!";
    ret (-1)
  else
    do v <- load_u32 (ptr_add header off_orig_data_size);
    ret (to_int v).

Definition validate_fragment (buf : ptr) : comp Z :=
  let header := buf in
  run assert (negb (ptr_eqb NULL header));
  do bad <- magic_mismatch header;
  if bad then ret (-1) else ret 0.

Definition set_chksum (buf : ptr) (chksum : Z) : comp Z :=
  let header := buf in
  run assert (negb (ptr_eqb NULL header));
  do bad <- magic_mismatch header;
  if bad then
    run log_error (String.append "Invalid fragment header (set chksum)!" LF);
    ret (-1)
  else
    run store_u32 (ptr_add header off_chksum) (to_uint32 chksum);
    ret 0.

Definition get_chksum (buf : ptr) : comp Z :=
  let header := buf in
  run assert (negb (ptr_eqb NULL header));
  do bad <- magic_mismatch header;
  if bad then
    run log_error "Invalid fragment header (get chksum)!";
    ret (-1)
  else
    do v <- load_u32 (ptr_add header off_chksum);
    ret (to_int v).

End Helpers.

(** ** Plain buffers *)

(** [memset] returns its first argument, which [buf] is assigned again. *)
Definition alloc_and_set_buffer (size value : Z) : comp ptr :=
  do buf <- malloc (to_size_t size);
  if negb (ptr_eqb buf NULL) then
    run memset (Some buf) value (to_size_t size);
    ret buf
  else ret buf.

Definition alloc_zeroed_buffer (size : Z) : comp ptr :=
  alloc_and_set_buffer size 0.

Definition check_and_free_buffer (buf : ptr) : comp ptr :=
  if negb (ptr_eqb buf NULL) then
    run free buf;
    ret NULL
  else ret NULL.

(** ** Floating point

    [double] is IEEE 754 binary64, specified by the standard library's
    [SpecFloat] with 53 bits of precision; division rounds to nearest,
    ties to even. *)

Module Double.

Definition prec : Z := 53.
Definition emax : Z := 1024.

(** [(double) z] for an integer [z]. *)
Definition of_int (z : Z) : spec_float := binary_normalize prec emax z 0 false.

(** [x / y] on [double]. *)
Definition div (x y : spec_float) : spec_float := SFdiv prec emax x y.

(** The value of [ceill]: an integer, an infinity or a NaN.  The argument
    is a [double], which converts to [long double] unchanged, and the least
    integer above a finite [double] is a [long double]. *)
Inductive integral : Type :=
  | Int (z : Z)
  | Inf (s : bool)
  | NaN.

(** The least integer that is not below [v * 2^e]. *)
Definition ceil_scaled (v e : Z) : Z :=
  if 0 <=? e then v * 2 ^ e else - ((- v) / 2 ^ (- e)).

Definition ceill (x : spec_float) : integral :=
  match x with
  | S754_zero _ => Int 0
  | S754_infinity s => Inf s
  | S754_nan => NaN
  | S754_finite s m e => Int (ceil_scaled (cond_Zopp s (Zpos m)) e)
  end.

(** [(int) x]: undefined ([None]) unless the value fits in [int]. *)
Definition to_int (x : integral) : option Z :=
  match x with
  | Int z => if int_rangeb z then Some z else None
  | Inf _ | NaN => None
  end.

End Double.

(** ** Data alignment *)

(** [a * b] on [int]: undefined ([None]) when the product overflows. *)
Definition int_mul (a b : Z) : option Z :=
  if int_rangeb (a * b) then Some (a * b) else None.

(** The part of [struct ec_backend] the helpers read:
    [instance->common.id] and [instance->args.uargs.{k,m,w}]. *)
Record ec_backend : Type := Backend {
  common_id : Z;
  uargs_k : Z;
  uargs_m : Z;
  uargs_w : Z
}.

Section Alignment.

(** The value of the enumerator [EC_BACKEND_JERASURE_RS_CAUCHY], declared
    in a header that is not among the sources. *)
Variable EC_BACKEND_JERASURE_RS_CAUCHY : Z.

(** [sizeof(long)] of the platform. *)
Variable sizeof_long : Z.

(** The result is [None] when the C standard leaves the execution
    undefined: an [int] product overflows, or the value of [ceill] does not
    fit in [int]. *)
Definition get_aligned_data_size (instance : ec_backend) (data_len : Z)
  : option Z :=
  let k := uargs_k instance in
  let m := uargs_m instance in
  let w := uargs_w instance in
  let word_size := Z.quot w 8 in
  alignment_multiple ←
    (if EC_BACKEND_JERASURE_RS_CAUCHY =? common_id instance then
       (* k * w in int, the product with sizeof(long) * 128 in size_t,
          converted to int by the assignment *)
       kw ← int_mul k w;
       Some (to_int
               (to_size_t (to_size_t kw * to_size_t (sizeof_long * 128))))
     else int_mul k word_size);
  q ← Double.to_int
        (Double.ceill
           (Double.div (Double.of_int data_len)
                       (Double.of_int alignment_multiple)));
  int_mul q alignment_multiple.

End Alignment.

(** ** Vocabulary of the properties *)

(** The shape the four setters share: [field] is the offset of the header
    field written, [msg] the diagnostic of the setter. *)
Definition set_header_field (MAGIC field : Z) (msg : string)
    (buf : ptr) (v : Z) : comp Z :=
  run assert (negb (ptr_eqb NULL buf));
  do bad <- magic_mismatch MAGIC buf;
  if bad then
    run log_error msg;
    ret (-1)
  else
    run store_u32 (ptr_add buf field) (to_uint32 v);
    ret 0.

(** The shape the four getters share. *)
Definition get_header_field (MAGIC field : Z) (msg : string) (buf : ptr)
  : comp Z :=
  run assert (negb (ptr_eqb NULL buf));
  do bad <- magic_mismatch MAGIC buf;
  if bad then
    run log_error msg;
    ret (-1)
  else
    do v <- load_u32 (ptr_add buf field);
    ret (to_int v).

(** The call [c] fails with -1, frees nothing and changes no object. *)
Definition rejects (c : comp Z) (m : mem) : Prop :=
  exists m', c m = Ok (-1) m' /\ heap m' = heap m /\
             arrays m' = arrays m /\ avail m' = avail m.

(** The entry [get_data_ptr_array_from_fragments] is to write for the
    fragment pointer [frag]. *)
Definition data_ptr_of (frag : ptr) : ptr :=
  if ptr_eqb frag NULL then NULL else ptr_add frag sizeof_fragment_header_t.

Fixpoint count_non_null (l : list ptr) : Z :=
  match l with
  | [] => 0
  | p :: l' => (if ptr_eqb p NULL then 0 else 1) + count_non_null l'
  end.

(** The [n] entries that [get_data_ptr_array_from_fragments] writes
    through [data_array] include no entry of [fragments] that it reads
    afterwards: the two pointers point into different arrays, or the output
    starts at or before the fragments (in place, when at the same entry), or
    at least [n] entries after them. *)
Definition writes_spare_pending_reads (data_array fragments : pptr) (n : Z)
  : Prop :=
  match data_array, fragments with
  | PPtr da dpos, PPtr fa fpos => da <> fa \/ dpos <= fpos \/ fpos + n <= dpos
  end.

(** [p] is the fragment pointer of a live fragment buffer: the start of a
    live object whose sentinel is the magic constant. *)
Definition live_fragment (MAGIC : Z) (m : mem) (p : ptr) : Prop :=
  exists b bytes,
    p = Ptr b 0 /\ b <> 0%nat /\ heap m !! b = Some bytes /\
    sentinel m p = Some MAGIC.

(** The memory after [log_error(msg)]. *)
Definition logged (msg : string) (m : mem) : mem :=
  Mem (heap m) (arrays m) (avail m) (errlog m ++ [msg]).

(** [r] is the smallest multiple of [g] that is not below [d]. *)
Definition smallest_multiple_ge (g d r : Z) : Prop :=
  (g | r) /\ d <= r /\ forall r', (g | r') -> d <= r' -> r <= r'.

(** The size of the object [alloc_fragment_buffer(size)] asks for: the
    [int] sum [size + sizeof(fragment_header_t)], passed as [size_t]. *)
Definition fragment_alloc_size (size : Z) : Z :=
  to_size_t (to_int (to_size_t (to_size_t size + sizeof_fragment_header_t))).

(** The block a pointer points into. *)
Definition block_of (p : ptr) : nat := match p with Ptr b _ => b end.

(** The value [alignment_multiple] gets in [get_aligned_data_size];
    [None] when computing it is undefined. *)
Definition alignment_multiple_of (cauchy_id sizeof_long : Z)
    (instance : ec_backend) : option Z :=
  if cauchy_id =? common_id instance then
    kw ← int_mul (uargs_k instance) (uargs_w instance);
    Some (to_int (to_size_t (to_size_t kw * to_size_t (sizeof_long * 128))))
  else int_mul (uargs_k instance) (Z.quot (uargs_w instance) 8).

(** The alignment granularity the specification gives for a backend.
    [w / 8] is the C division of [int]s. *)
Definition granularity (cauchy_id sizeof_long : Z) (instance : ec_backend)
  : Z :=
  if cauchy_id =? common_id instance
  then uargs_k instance * uargs_w instance * (sizeof_long * 128)
  else uargs_k instance * (Z.quot (uargs_w instance) 8).

(** ** Sample inputs *)

Module Sample.

(** A value for the sentinel: the one upstream liberasurecode gives
    [LIBERASURECODE_FRAG_HEADER_MAGIC]. *)
Definition MAGIC : Z := 0xb0c5ecc.

(** A value for [EC_BACKEND_JERASURE_RS_CAUCHY] (upstream: the third
    enumerator), and [sizeof(long)] on LP64. *)
Definition CAUCHY : Z := 2.
Definition sizeof_long : Z := 8.

(** A memory without objects, with 4096 bytes to allocate. *)
Definition empty : mem := Mem ∅ ∅ 4096 [].

(** The memory after [alloc_fragment_buffer(8)] in [empty], and the
    fragment pointer it returned. *)
Definition frag : ptr := Ptr 1 0.

Definition with_fragment : mem :=
  match alloc_fragment_buffer MAGIC 8 empty with
  | Ok _ m => m
  | Stuck _ => empty
  end.

(** The same buffer with its sentinel overwritten. *)
Definition tampered : mem :=
  match poke_u32 with_fragment frag 0 with
  | Some m => m
  | None => empty
  end.

(** A stripe of three fragments whose second one is missing: array 0
    holds the fragment pointers, array 1 is the output array. *)
Definition stripe : mem :=
  Mem ∅ {[ 0%nat := [Ptr 1 0; NULL; Ptr 2 0];
           1%nat := [NULL; NULL; NULL] ]} 0 [].

(** A non-Cauchy backend with k = 10, m = 4 and words of [w] bits. *)
Definition backend (w : Z) : ec_backend := Backend 1 10 4 w.

End Sample.

(** ** Vocabulary of the further properties *)

(** What the four getters return on the buffer at [buf]: idx, payload
    size, orig-data size and checksum; [None] when one of them does not
    return. *)
Definition header_view (MAGIC : Z) (buf : ptr) (m : mem)
  : option (Z * Z * Z * Z) :=
  match get_fragment_idx MAGIC buf m,
        get_fragment_payload_size MAGIC buf m,
        get_orig_data_size MAGIC buf m,
        get_chksum MAGIC buf m with
  | Ok i _, Ok s _, Ok o _, Ok c _ => Some (i, s, o, c)
  | _, _, _, _ => None
  end.

(** [d] rounded up to a multiple of [g]. *)
Definition rounded_up (g d : Z) : Z := (d + g - 1) / g * g.

(** The two memories hold the same objects, except possibly in block [b]. *)
Definition same_heap_except (b : nat) (m m' : mem) : Prop :=
  forall b', b' <> b -> heap m' !! b' = heap m !! b'.

(** No object lives in the block of the null pointer. *)
Definition null_block_free (m : mem) : Prop := heap m !! 0%nat = None.

(** ** Further sample inputs *)

Module MoreSamples.

(** The memory after [free_fragment_buffer] released the buffer of
    [Sample.with_fragment] through its data pointer. *)
Definition released : mem :=
  match free_fragment_buffer Sample.MAGIC (Ptr 1 32) Sample.with_fragment with
  | Ok _ m => m
  | Stuck _ => Sample.empty
  end.

(** An object of 64 zero bytes in block 1 whose bytes 16 .. 19 hold the
    magic constant: a header with an intact sentinel inside an object. *)
Definition embedded : mem :=
  Mem {[ 1%nat := list_inserts 16 (encode_u32 Sample.MAGIC)
                    (replicate 64 (Byte x00)) ]} ∅ 0 [].

(** The Cauchy backend with k = 4, m = 2 and w = 8. *)
Definition cauchy : ec_backend := Backend Sample.CAUCHY 4 2 8.

End MoreSamples.

(** * Properties *)

(** ** Integer conversions *)

Lemma to_int_to_uint32 (v : Z) : int_range v -> to_int (to_uint32 v) = v.
Proof.
  unfold int_range, INT_MIN, INT_MAX, to_int, to_uint32. intros H.
  rewrite Zplus_mod_idemp_l.
  rewrite Z.mod_small by lia. lia.
Qed.

Lemma to_uint32_range (v : Z) : 0 <= to_uint32 v < 2 ^ 32.
Proof. unfold to_uint32. apply Z.mod_pos_bound. lia. Qed.

Lemma to_uint32_small (v : Z) : 0 <= v < 2 ^ 32 -> to_uint32 v = v.
Proof. unfold to_uint32. intros H. apply Z.mod_small. lia. Qed.

(** ** Bytes *)

Lemma Z_of_byte_range (b : byte) : 0 <= Z_of_byte b < 256.
Proof.
  unfold Z_of_byte. pose proof (Byte.to_N_bounded b). lia.
Qed.

Lemma Z_of_byte_of_Z (z : Z) : Z_of_byte (byte_of_Z z) = z mod 256.
Proof.
  unfold Z_of_byte, byte_of_Z.
  assert (Hr : 0 <= z mod 256 < 256) by (apply Z.mod_pos_bound; lia).
  destruct (Byte.of_N (Z.to_N (z mod 256))) as [b|] eqn:E.
  - apply Byte.to_of_N in E. rewrite E. lia.
  - apply Byte.of_N_None_iff in E. lia.
Qed.

Lemma decode_u32_range (b0 b1 b2 b3 : byte) :
  0 <= decode_u32 b0 b1 b2 b3 < 2 ^ 32.
Proof.
  unfold decode_u32.
  pose proof (Z_of_byte_range b0). pose proof (Z_of_byte_range b1).
  pose proof (Z_of_byte_range b2). pose proof (Z_of_byte_range b3).
  lia.
Qed.

Lemma decode_encode_u32 (v : Z) :
  0 <= v < 2 ^ 32 ->
  decode_u32 (byte_of_Z v) (byte_of_Z (v / 2 ^ 8)) (byte_of_Z (v / 2 ^ 16))
    (byte_of_Z (v / 2 ^ 24)) = v.
Proof.
  intros H. unfold decode_u32. rewrite !Z_of_byte_of_Z.
  change (2 ^ 8) with 256. change (2 ^ 16) with 65536.
  change (2 ^ 24) with 16777216. change (2 ^ 32) with 4294967296 in H.
  Z.div_mod_to_equations. lia.
Qed.

(** ** Words in an object *)

Lemma read_u32_inserts_same (bytes : list memval) (i : nat) (v : Z) :
  (i + 4 <= length bytes)%nat ->
  0 <= v < 2 ^ 32 ->
  read_u32 (list_inserts i (encode_u32 v) bytes) i = Some v.
Proof.
  intros Hlen Hv. unfold read_u32.
  rewrite !list_lookup_inserts by (simpl; lia).
  replace (i - i)%nat with 0%nat by lia.
  replace (i + 1 - i)%nat with 1%nat by lia.
  replace (i + 2 - i)%nat with 2%nat by lia.
  replace (i + 3 - i)%nat with 3%nat by lia.
  simpl. f_equal. apply decode_encode_u32. exact Hv.
Qed.

Lemma read_u32_inserts_other (bytes k : list memval) (i j : nat) :
  (j + 4 <= i \/ i + length k <= j)%nat ->
  read_u32 (list_inserts i k bytes) j = read_u32 bytes j.
Proof.
  intros [H|H]; unfold read_u32.
  - rewrite !list_lookup_inserts_lt by lia. reflexivity.
  - rewrite !list_lookup_inserts_ge by lia. reflexivity.
Qed.

Lemma in_bounds_spec (ofs n : Z) (len : nat) :
  in_bounds ofs n len = true <-> 0 <= ofs /\ ofs + n <= Z.of_nat len.
Proof. unfold in_bounds. rewrite andb_true_iff, !Z.leb_le. reflexivity. Qed.

(** ** Reading and writing through pointers *)

Lemma heap_set_heap (h : gmap nat (list memval)) (m : mem) :
  heap (set_heap h m) = h.
Proof. reflexivity. Qed.


Lemma peek_poke_same (m m' : mem) (p : ptr) (v : Z) :
  poke_u32 m p v = Some m' ->
  0 <= v < 2 ^ 32 ->
  peek_u32 m' p = Some v.
Proof.
  destruct p as [b ofs]. unfold poke_u32, peek_u32. intros H Hv.
  destruct (heap m !! b) as [bytes|] eqn:Hb; [|discriminate].
  destruct (in_bounds ofs 4 (length bytes)) eqn:Hin; [|discriminate].
  apply (inj Some) in H; subst m'. rewrite heap_set_heap. rewrite lookup_insert_eq.
  rewrite length_inserts, Hin.
  apply in_bounds_spec in Hin.
  apply read_u32_inserts_same; [lia | exact Hv].
Qed.

Lemma peek_poke_other (m m' : mem) (b b' : nat) (ofs ofs' v : Z) :
  poke_u32 m (Ptr b ofs) v = Some m' ->
  b <> b' \/ ofs' + 4 <= ofs \/ ofs + 4 <= ofs' ->
  peek_u32 m' (Ptr b' ofs') = peek_u32 m (Ptr b' ofs').
Proof.
  unfold poke_u32, peek_u32. intros H Hd.
  destruct (heap m !! b) as [bytes|] eqn:Hb; [|discriminate].
  destruct (in_bounds ofs 4 (length bytes)) eqn:Hin; [|discriminate].
  apply (inj Some) in H; subst m'. rewrite heap_set_heap.
  destruct (decide (b = b')) as [<-|Hne].
  - rewrite lookup_insert_eq, Hb, length_inserts.
    destruct (in_bounds ofs' 4 (length bytes)) eqn:Hin'; [|reflexivity].
    apply in_bounds_spec in Hin. apply in_bounds_spec in Hin'.
    apply read_u32_inserts_other. simpl. lia.
  - rewrite lookup_insert_ne by exact Hne. reflexivity.
Qed.

Lemma poke_header_field (m : mem) (buf : ptr) (off v : Z) :
  has_header m buf = true ->
  0 <= off -> off + 4 <= sizeof_fragment_header_t ->
  exists m', poke_u32 m (ptr_add buf off) v = Some m'.
Proof.
  destruct buf as [b ofs]. unfold has_header, poke_u32, ptr_add.
  intros H H0 H1.
  destruct (heap m !! b) as [bytes|]; [|discriminate].
  apply in_bounds_spec in H.
  destruct (in_bounds (ofs + off) 4 (length bytes)) eqn:Hin; [eauto|].
  apply not_true_iff_false in Hin. rewrite in_bounds_spec in Hin. lia.
Qed.

(** ** Pointers *)

Lemma ptr_eqb_eq (p q : ptr) : ptr_eqb p q = true <-> p = q.
Proof.
  destruct p as [b1 o1], q as [b2 o2]. unfold ptr_eqb.
  rewrite andb_true_iff, Nat.eqb_eq, Z.eqb_eq.
  split; [intros [-> ->]; reflexivity | intros [= -> ->]; auto].
Qed.

Lemma ptr_eqb_NULL_l (p : ptr) : p <> NULL -> ptr_eqb NULL p = false.
Proof.
  intros H. apply not_true_iff_false. rewrite ptr_eqb_eq. congruence.
Qed.

Lemma ptr_eqb_NULL_r (p : ptr) : p <> NULL -> ptr_eqb p NULL = false.
Proof.
  intros H. apply not_true_iff_false. rewrite ptr_eqb_eq. congruence.
Qed.

Lemma ptr_sub_add (p : ptr) (n : Z) : ptr_sub (ptr_add p n) n = p.
Proof. destruct p as [b o]. unfold ptr_sub, ptr_add. f_equal. lia. Qed.

Lemma ptr_add_sub (p : ptr) (n : Z) : ptr_add (ptr_sub p n) n = p.
Proof. destruct p as [b o]. unfold ptr_sub, ptr_add. f_equal. lia. Qed.

Lemma peek_u32_range (m : mem) (p : ptr) (v : Z) :
  peek_u32 m p = Some v -> 0 <= v < 2 ^ 32.
Proof.
  destruct p as [b ofs]. unfold peek_u32, read_u32. intros H.
  destruct (heap m !! b) as [bytes|]; [|discriminate].
  destruct (in_bounds ofs 4 (length bytes)); [|discriminate].
  repeat match type of H with
         | match ?x with _ => _ end = _ => destruct x; try discriminate
         end.
  apply (inj Some) in H. subst v. apply decode_u32_range.
Qed.

Lemma peek_u32_offset (m : mem) (b : nat) (ofs v : Z) :
  peek_u32 m (Ptr b ofs) = Some v -> 0 <= ofs.
Proof.
  unfold peek_u32. intros H.
  destruct (heap m !! b) as [bytes|]; [|discriminate].
  destruct (in_bounds ofs 4 (length bytes)) eqn:Hin; [|discriminate].
  apply in_bounds_spec in Hin. lia.
Qed.

(** ** The sentinel check *)

Section HelperProperties.

Variable MAGIC : Z.

Lemma magic_mismatch_eval (m : mem) (buf : ptr) (s : Z) :
  sentinel m buf = Some s ->
  magic_mismatch MAGIC buf m = Ok (negb (s =? MAGIC)) m.
Proof.
  unfold sentinel, magic_mismatch, bind, load_u32, ret. intros ->. reflexivity.
Qed.

Lemma magic_mismatch_unreadable (m : mem) (buf : ptr) :
  sentinel m buf = None ->
  magic_mismatch MAGIC buf m = Stuck UndefinedBehaviour.
Proof.
  unfold sentinel, magic_mismatch, bind, load_u32, ret. intros ->. reflexivity.
Qed.

(** *** Accessors on a buffer whose sentinel is intact *)

Lemma set_header_field_ok (m : mem) (buf : ptr) (off v : Z) (msg : string) :
  buf <> NULL ->
  has_header m buf = true ->
  sentinel m buf = Some MAGIC ->
  4 <= off -> off + 4 <= sizeof_fragment_header_t ->
  exists m',
    set_header_field MAGIC off msg buf v m = Ok 0 m' /\
    poke_u32 m (ptr_add buf off) (to_uint32 v) = Some m'.
Proof.
  intros Hnn Hh Hs H1 H2.
  destruct (poke_header_field m buf off (to_uint32 v) Hh) as [m' Hm'];
    [lia | lia |].
  exists m'. split; [|exact Hm'].
  unfold set_header_field, bind, assert.
  rewrite (ptr_eqb_NULL_l _ Hnn). cbn [negb ret].
  rewrite (magic_mismatch_eval _ _ _ Hs), Z.eqb_refl. cbn [negb].
  unfold store_u32. rewrite Hm'. reflexivity.
Qed.

Lemma get_header_field_ok (m : mem) (buf : ptr) (off v : Z) (msg : string) :
  buf <> NULL ->
  sentinel m buf = Some MAGIC ->
  peek_u32 m (ptr_add buf off) = Some v ->
  get_header_field MAGIC off msg buf m = Ok (to_int v) m.
Proof.
  intros Hnn Hs Hv.
  unfold get_header_field, bind, assert.
  rewrite (ptr_eqb_NULL_l _ Hnn). cbn [negb ret].
  rewrite (magic_mismatch_eval _ _ _ Hs), Z.eqb_refl. cbn [negb].
  unfold load_u32. rewrite Hv. reflexivity.
Qed.

Lemma set_get_header_field (m : mem) (buf : ptr) (off v : Z)
    (msg msg' : string) :
  buf <> NULL ->
  has_header m buf = true ->
  sentinel m buf = Some MAGIC ->
  4 <= off -> off + 4 <= sizeof_fragment_header_t ->
  int_range v ->
  exists m',
    set_header_field MAGIC off msg buf v m = Ok 0 m' /\
    get_header_field MAGIC off msg' buf m' = Ok v m'.
Proof.
  intros Hnn Hh Hs H1 H2 Hv.
  destruct (set_header_field_ok m buf off v msg Hnn Hh Hs H1 H2)
    as (m' & Hset & Hpoke).
  exists m'. split; [exact Hset|].
  rewrite <- (to_int_to_uint32 v Hv) at 1.
  apply get_header_field_ok; [exact Hnn | |].
  - unfold sentinel in *. destruct buf as [b ofs]. unfold ptr_add in *.
    rewrite (peek_poke_other _ _ _ _ _ _ _ Hpoke); [exact Hs|].
    unfold off_magic. lia.
  - apply (peek_poke_same _ _ _ _ Hpoke). apply to_uint32_range.
Qed.

(** C4: on a fragment buffer whose sentinel equals the magic constant,
    writing any [int] value [v] to the idx, payload-size, orig-data-size or
    checksum field with its setter and reading it back with the matching
    getter yields [v]; the setter returns 0 and the getter returns [v]
    without logging an error (the memory it leaves is the one it got). *)
Theorem header_fields_round_trip (m : mem) (buf : ptr) (v : Z) :
  buf <> NULL ->
  has_header m buf = true ->
  sentinel m buf = Some MAGIC ->
  int_range v ->
  (exists m', set_fragment_idx MAGIC buf v m = Ok 0 m' /\
              get_fragment_idx MAGIC buf m' = Ok v m') /\
  (exists m', set_fragment_payload_size MAGIC buf v m = Ok 0 m' /\
              get_fragment_payload_size MAGIC buf m' = Ok v m') /\
  (exists m', set_orig_data_size MAGIC buf v m = Ok 0 m' /\
              get_orig_data_size MAGIC buf m' = Ok v m') /\
  (exists m', set_chksum MAGIC buf v m = Ok 0 m' /\
              get_chksum MAGIC buf m' = Ok v m').
Proof.
  intros Hnn Hh Hs Hv.
  assert (Hfield : forall off msg msg',
             4 <= off -> off + 4 <= sizeof_fragment_header_t ->
             exists m', set_header_field MAGIC off msg buf v m = Ok 0 m' /\
                        get_header_field MAGIC off msg' buf m' = Ok v m')
    by (intros; apply set_get_header_field; assumption).
  unfold sizeof_fragment_header_t in Hfield.
  split; [|split; [|split]].
  - exact (Hfield off_idx _ _ ltac:(unfold off_idx; lia)
             ltac:(unfold off_idx; lia)).
  - exact (Hfield off_size _ _ ltac:(unfold off_size; lia)
             ltac:(unfold off_size; lia)).
  - exact (Hfield off_orig_data_size _ _
             ltac:(unfold off_orig_data_size; lia)
             ltac:(unfold off_orig_data_size; lia)).
  - exact (Hfield off_chksum _ _ ltac:(unfold off_chksum; lia)
             ltac:(unfold off_chksum; lia)).
Qed.

(** *** Accessors on a buffer whose sentinel is not the magic constant *)

Lemma set_header_field_rejects (m : mem) (buf : ptr) (off s v : Z)
    (msg : string) :
  buf <> NULL -> sentinel m buf = Some s -> s <> MAGIC ->
  rejects (set_header_field MAGIC off msg buf v) m.
Proof.
  intros Hnn Hs Hne. unfold rejects, set_header_field, bind, assert.
  rewrite (ptr_eqb_NULL_l _ Hnn). cbn [negb ret].
  rewrite (magic_mismatch_eval _ _ _ Hs).
  apply Z.eqb_neq in Hne. rewrite Hne. cbn [negb log_error].
  eexists. split; [reflexivity|]. auto.
Qed.

Lemma get_header_field_rejects (m : mem) (buf : ptr) (off s : Z)
    (msg : string) :
  buf <> NULL -> sentinel m buf = Some s -> s <> MAGIC ->
  rejects (get_header_field MAGIC off msg buf) m.
Proof.
  intros Hnn Hs Hne. unfold rejects, get_header_field, bind, assert.
  rewrite (ptr_eqb_NULL_l _ Hnn). cbn [negb ret].
  rewrite (magic_mismatch_eval _ _ _ Hs).
  apply Z.eqb_neq in Hne. rewrite Hne. cbn [negb log_error].
  eexists. split; [reflexivity|]. auto.
Qed.

Lemma free_fragment_buffer_rejects (m : mem) (buf : ptr) (s : Z) :
  sentinel m buf = Some s -> s <> MAGIC ->
  rejects (free_fragment_buffer MAGIC (get_data_ptr_from_fragment buf)) m.
Proof.
  intros Hs Hne. unfold rejects, free_fragment_buffer, bind.
  assert (Hd : get_data_ptr_from_fragment buf <> NULL).
  { destruct buf as [b ofs]. unfold sentinel, ptr_add in Hs.
    apply peek_u32_offset in Hs.
    unfold get_data_ptr_from_fragment, ptr_add, NULL,
      sizeof_fragment_header_t, off_magic in *.
    intros [= _ H]. lia. }
  rewrite (ptr_eqb_NULL_l _ Hd).
  unfold get_data_ptr_from_fragment. rewrite ptr_sub_add.
  rewrite (magic_mismatch_eval _ _ _ Hs).
  apply Z.eqb_neq in Hne. rewrite Hne. cbn [negb log_error ret].
  eexists. split; [reflexivity|]. auto.
Qed.

(** C2, as the code has it: on a buffer whose sentinel is not the magic
    constant, the getters and setters of idx, payload size, orig-data size
    and checksum, and [free_fragment_buffer] called with the buffer's data
    pointer, return -1, change no object and free nothing.
    [get_fragment_size] is not among them: it never reads the sentinel. *)
Theorem tampered_sentinel_rejected (m : mem) (buf : ptr) (s v : Z) :
  buf <> NULL ->
  sentinel m buf = Some s ->
  s <> MAGIC ->
  rejects (set_fragment_idx MAGIC buf v) m /\
  rejects (get_fragment_idx MAGIC buf) m /\
  rejects (set_fragment_payload_size MAGIC buf v) m /\
  rejects (get_fragment_payload_size MAGIC buf) m /\
  rejects (set_orig_data_size MAGIC buf v) m /\
  rejects (get_orig_data_size MAGIC buf) m /\
  rejects (set_chksum MAGIC buf v) m /\
  rejects (get_chksum MAGIC buf) m /\
  rejects (free_fragment_buffer MAGIC (get_data_ptr_from_fragment buf)) m.
Proof.
  intros Hnn Hs Hne.
  pose proof (fun off msg =>
                set_header_field_rejects m buf off s v msg Hnn Hs Hne) as Hset.
  pose proof (fun off msg =>
                get_header_field_rejects m buf off s msg Hnn Hs Hne) as Hget.
  split; [exact (Hset off_idx _)|].
  split; [exact (Hget off_idx _)|].
  split; [exact (Hset off_size _)|].
  split; [exact (Hget off_size _)|].
  split; [exact (Hset off_orig_data_size _)|].
  split; [exact (Hget off_orig_data_size _)|].
  split; [exact (Hset off_chksum _)|].
  split; [exact (Hget off_chksum _)|].
  eapply free_fragment_buffer_rejects; eassumption.
Qed.

(** *** The total size *)

(** C6: [get_fragment_size] returns -1 (as [uint64_t], that is 2^64 - 1)
    for the null pointer; for any other pointer it returns the size field
    of the header plus the header size, whatever the sentinel holds. *)
Theorem get_fragment_size_spec :
  (forall m, get_fragment_size NULL m = Ok (to_size_t (-1)) m) /\
  to_size_t (-1) = 2 ^ 64 - 1 /\
  (forall m buf size,
      buf <> NULL ->
      peek_u32 m (ptr_add buf off_size) = Some size ->
      get_fragment_size buf m = Ok (size + sizeof_fragment_header_t) m).
Proof.
  split; [reflexivity|]. split; [reflexivity|].
  intros m buf size Hnn Hsz. unfold get_fragment_size, bind, load_u32.
  rewrite (ptr_eqb_NULL_l _ Hnn), Hsz. unfold ret. f_equal.
  apply peek_u32_range in Hsz.
  unfold to_size_t, sizeof_fragment_header_t. apply Z.mod_small. lia.
Qed.

(** *** Fragment and data pointers *)

(** C7: for a fragment buffer whose sentinel equals the magic constant,
    the validating conversion maps its data pointer back to the fragment
    pointer, so converting that back yields the data pointer again; the
    non-validating conversion undoes [get_data_ptr_from_fragment], and is
    undone by it, for every pointer. *)
Theorem data_fragment_pointer_symmetry (m : mem) (frag p : ptr) :
  sentinel m frag = Some MAGIC ->
  (let data := get_data_ptr_from_fragment frag in
   exists f, get_fragment_ptr_from_data MAGIC data m = Ok f m /\
             f = frag /\ get_data_ptr_from_fragment f = data) /\
  get_fragment_ptr_from_data_novalidate (get_data_ptr_from_fragment p) = p /\
  get_data_ptr_from_fragment (get_fragment_ptr_from_data_novalidate p) = p.
Proof.
  intros Hs. split; [|split].
  - exists frag. split; [|auto].
    unfold get_fragment_ptr_from_data, get_data_ptr_from_fragment, bind.
    rewrite ptr_sub_add, (magic_mismatch_eval _ _ _ Hs), Z.eqb_refl.
    reflexivity.
  - apply ptr_sub_add.
  - apply ptr_add_sub.
Qed.

(** *** Freeing *)

(** C9: [free_fragment_buffer] on the null pointer returns -1 at once: the
    memory, its log included, is left as it was, and no header is read (the
    call succeeds in every memory, also where nothing is readable). *)
Theorem free_fragment_buffer_null (m : mem) :
  free_fragment_buffer MAGIC NULL m = Ok (-1) m.
Proof. reflexivity. Qed.

(** *** Allocation *)

Lemma fresh_block_spec (m : mem) :
  fresh_block m <> 0%nat /\ heap m !! fresh_block m = None.
Proof.
  unfold fresh_block.
  pose proof (is_fresh ({[ 0%nat ]} ∪ dom (heap m))) as H. split.
  - intros E. apply H. rewrite E. set_solver.
  - apply not_elem_of_dom. set_solver.
Qed.

Lemma to_size_t_range (z : Z) : 0 <= to_size_t z < 2 ^ 64.
Proof. unfold to_size_t. apply Z.mod_pos_bound. lia. Qed.

Lemma inserts_replicate {A} (n : nat) (x y : A) :
  list_inserts 0 (replicate n x) (replicate n y) = replicate n x.
Proof.
  rewrite <- (app_nil_r (replicate n x)) at 1.
  apply list_inserts_0_l. rewrite !length_replicate. reflexivity.
Qed.

(** What [get_aligned_buffer16] does when the allocator has the bytes: a
    new object of that many zero bytes. *)
Lemma get_aligned_buffer16_ok (m : mem) (size : Z) :
  to_size_t size <= avail m ->
  get_aligned_buffer16 size m =
    Ok (Ptr (fresh_block m) 0)
       (set_avail (avail m - to_size_t size)
          (set_heap (<[fresh_block m :=
                         replicate (Z.to_nat (to_size_t size)) (Byte x00)]>
                       (heap m)) m)).
Proof.
  intros Hle. pose proof (to_size_t_range size) as Hr.
  unfold get_aligned_buffer16, bind, posix_memalign.
  change (valid_alignment 16) with true. cbn [negb].
  apply Z.leb_le in Hle. rewrite Hle. change (0 <? 0) with false. cbv iota.
  unfold memset. unfold set_avail, set_heap. cbn [heap arrays avail errlog].
  rewrite lookup_insert_eq, length_replicate.
  assert (Hin : in_bounds 0 (to_size_t size)
                  (Z.to_nat (to_size_t size)) && (0 <=? to_size_t size)
                = true).
  { apply andb_true_iff. split; [apply in_bounds_spec|apply Z.leb_le]; lia. }
  rewrite Hin. unfold ret. rewrite insert_insert_eq.
  change (Z.to_nat 0) with 0%nat. change (byte_of_Z 0) with x00.
  rewrite inserts_replicate. reflexivity.
Qed.

(** What it does when the allocator does not: [posix_memalign] returns a
    positive error number, the test [< 0] lets it pass, and [memset] is
    called on the pointer that was never assigned. *)
Lemma get_aligned_buffer16_no_memory (m : mem) (size : Z) :
  avail m < to_size_t size ->
  get_aligned_buffer16 size m = Stuck UndefinedBehaviour.
Proof.
  intros Hlt. unfold get_aligned_buffer16, bind, posix_memalign.
  change (valid_alignment 16) with true. cbn [negb].
  apply Z.leb_gt in Hlt. rewrite Hlt. reflexivity.
Qed.

Lemma alloc_fragment_buffer_inv (m m1 : mem) (size : Z) (p : ptr) :
  alloc_fragment_buffer MAGIC size m = Ok p m1 ->
  let n := fragment_alloc_size size in
  let b := fresh_block m in
  n <= avail m /\ 4 <= n /\ p = Ptr b 0 /\
  m1 = set_avail (avail m - n)
         (set_heap (<[b := list_inserts 0 (encode_u32 (to_uint32 MAGIC))
                             (replicate (Z.to_nat n) (Byte x00))]>
                      (heap m)) m).
Proof.
  intros H n b. unfold alloc_fragment_buffer in H.
  set (total := to_int (to_size_t (to_size_t size + sizeof_fragment_header_t)))
    in *.
  assert (Hn : n = to_size_t total) by reflexivity.
  unfold bind in H.
  destruct (Z_le_gt_dec (to_size_t total) (avail m)) as [Hle|Hgt].
  - rewrite (get_aligned_buffer16_ok _ _ Hle) in H. fold b in H.
    destruct (fresh_block_spec m) as [Hb0 _]. fold b in Hb0.
    assert (Hnn : Ptr b 0 <> NULL) by (unfold NULL; congruence).
    rewrite (ptr_eqb_NULL_r _ Hnn) in H. cbn [negb] in H.
    unfold store_u32, poke_u32, ptr_add, off_magic in H.
    unfold set_avail, set_heap in H. cbn [heap arrays avail errlog] in H.
    rewrite lookup_insert_eq, length_replicate in H.
    change (0 + 0) with 0 in H.
    destruct (in_bounds 0 4 (Z.to_nat (to_size_t total))) eqn:Hin;
      [|discriminate].
    apply in_bounds_spec in Hin. unfold ret in H.
    rewrite insert_insert_eq in H. change (Z.to_nat 0) with 0%nat in H.
    injection H as <- <-.
    rewrite Hn. repeat split; [exact Hle | lia].
  - rewrite get_aligned_buffer16_no_memory in H by lia. discriminate.
Qed.

Lemma free_inv (p : ptr) (m m2 : mem) (u : unit) :
  free p m = Ok u m2 ->
  (p = NULL /\ m2 = m) \/
  (exists b bytes, p = Ptr b 0 /\ heap m !! b = Some bytes /\
                   heap m2 = delete b (heap m)).
Proof.
  unfold free. destruct (ptr_eqb p NULL) eqn:E.
  - apply ptr_eqb_eq in E. intros [= _ <-]. left. auto.
  - destruct p as [b ofs].
    destruct (heap m !! b) as [bytes|] eqn:Hb; [|discriminate].
    destruct (ofs =? 0) eqn:Ho; [|discriminate].
    apply Z.eqb_eq in Ho. subst ofs. intros [= _ <-]. right.
    exists b, bytes. split; [reflexivity|]. split; [exact Hb|reflexivity].
Qed.

(** The state right after a successful [alloc_fragment_buffer]. *)
Lemma fresh_fragment (m m1 : mem) (size : Z) (p : ptr) :
  0 <= MAGIC < 2 ^ 32 ->
  alloc_fragment_buffer MAGIC size m = Ok p m1 ->
  exists b bytes,
    p = Ptr b 0 /\ b <> 0%nat /\ heap m !! b = None /\
    heap m1 = <[b := bytes]> (heap m) /\
    avail m1 = avail m - Z.of_nat (length bytes) /\
    Z.of_nat (length bytes) = fragment_alloc_size size /\
    sentinel m1 p = Some MAGIC.
Proof.
  intros HM H. apply alloc_fragment_buffer_inv in H.
  destruct H as (Hle & Hn & -> & ->).
  destruct (fresh_block_spec m) as [Hb0 Hfresh].
  eexists _, _. split; [reflexivity|]. split; [exact Hb0|].
  split; [exact Hfresh|]. split; [reflexivity|].
  rewrite length_inserts, length_replicate.
  split; [cbn [avail set_avail]; lia|]. split; [lia|].
  unfold sentinel, ptr_add, off_magic, peek_u32.
  unfold set_avail, set_heap. cbn [heap].
  rewrite lookup_insert_eq, length_inserts, length_replicate.
  change (0 + 0) with 0.
  assert (Hin : in_bounds 0 4 (Z.to_nat (fragment_alloc_size size)) = true)
    by (apply in_bounds_spec; lia).
  rewrite Hin. change (Z.to_nat 0) with 0%nat.
  rewrite read_u32_inserts_same.
  - f_equal. apply to_uint32_small. exact HM.
  - rewrite length_replicate. lia.
  - apply to_uint32_range.
Qed.

Lemma free_fresh_fragment_data_ptr (m m1 : mem) (size : Z) (p : ptr) :
  0 <= MAGIC < 2 ^ 32 ->
  alloc_fragment_buffer MAGIC size m = Ok p m1 ->
  exists m2,
    free_fragment_buffer MAGIC (get_data_ptr_from_fragment p) m1 = Ok 0 m2 /\
    heap m2 = heap m /\ avail m2 = avail m /\
    heap m2 = delete (block_of p) (heap m1).
Proof.
  intros HM H.
  destruct (fresh_fragment _ _ _ _ HM H)
    as (b & bytes & -> & Hb0 & Hfresh & Hheap & Havail & _ & Hs).
  unfold free_fragment_buffer, bind, get_data_ptr_from_fragment.
  assert (Hd : ptr_add (Ptr b 0) sizeof_fragment_header_t <> NULL)
    by (unfold ptr_add, NULL, sizeof_fragment_header_t; intros [= _ ?]; lia).
  rewrite (ptr_eqb_NULL_l _ Hd), ptr_sub_add.
  rewrite (magic_mismatch_eval _ _ _ Hs), Z.eqb_refl. cbn [negb].
  unfold free.
  assert (Hnn : Ptr b 0 <> NULL) by (unfold NULL; congruence).
  rewrite (ptr_eqb_NULL_r _ Hnn), Hheap, lookup_insert_eq. cbn [Z.eqb ret].
  eexists. split; [reflexivity|].
  unfold set_avail, set_heap. cbn [heap avail block_of].
  rewrite delete_insert_eq, (delete_id _ _ Hfresh).
  repeat split. lia.
Qed.

(** C1, as the code has it: a buffer that [alloc_fragment_buffer] just
    returned passes the sentinel check, and [free_fragment_buffer] called
    with its data pointer (the fragment pointer plus the header size)
    returns 0 and releases the whole allocation: the heap and the bytes
    available are again what they were before the allocation. *)
Theorem fresh_fragment_freed_by_data_pointer
    (m m1 : mem) (size : Z) (p : ptr) :
  0 <= MAGIC < 2 ^ 32 ->
  alloc_fragment_buffer MAGIC size m = Ok p m1 ->
  validate_fragment MAGIC p m1 = Ok 0 m1 /\
  exists m2,
    free_fragment_buffer MAGIC (get_data_ptr_from_fragment p) m1 = Ok 0 m2 /\
    heap m2 = heap m /\ avail m2 = avail m.
Proof.
  intros HM H. split.
  - destruct (fresh_fragment _ _ _ _ HM H)
      as (b & bytes & -> & Hb0 & _ & _ & _ & _ & Hs).
    unfold validate_fragment, bind, assert.
    assert (Hnn : Ptr b 0 <> NULL) by (unfold NULL; congruence).
    rewrite (ptr_eqb_NULL_l _ Hnn). cbn [negb ret].
    rewrite (magic_mismatch_eval _ _ _ Hs), Z.eqb_refl. reflexivity.
  - destruct (free_fresh_fragment_data_ptr _ _ _ _ HM H)
      as (m2 & Hfree & Hheap & Havail & _).
    exists m2. auto.
Qed.

Lemma free_fragment_buffer_at_base (m : mem) (b : nat)
    (bytes : list memval) :
  Ptr b 0 <> NULL ->
  heap m !! b = Some bytes ->
  sentinel m (Ptr b 0) = Some MAGIC ->
  free_fragment_buffer MAGIC (get_data_ptr_from_fragment (Ptr b 0)) m =
    Ok 0 (set_avail (avail m + Z.of_nat (length bytes))
            (set_heap (delete b (heap m)) m)).
Proof.
  intros Hnn Hb Hs.
  unfold free_fragment_buffer, bind, get_data_ptr_from_fragment.
  assert (Hd : ptr_add (Ptr b 0) sizeof_fragment_header_t <> NULL)
    by (unfold ptr_add, NULL, sizeof_fragment_header_t; intros [= _ ?]; lia).
  rewrite (ptr_eqb_NULL_l _ Hd), ptr_sub_add.
  rewrite (magic_mismatch_eval _ _ _ Hs), Z.eqb_refl. cbn [negb].
  unfold free. rewrite (ptr_eqb_NULL_r _ Hnn), Hb. reflexivity.
Qed.

(** A call that returns 0 has read the magic constant at its argument minus
    the header size and has passed that address to [free]. *)
Lemma free_fragment_buffer_success_inv (m m' : mem) (buf : ptr) :
  free_fragment_buffer MAGIC buf m = Ok 0 m' ->
  buf <> NULL /\
  sentinel m (get_fragment_ptr_from_data_novalidate buf) = Some MAGIC /\
  free (get_fragment_ptr_from_data_novalidate buf) m = Ok tt m'.
Proof.
  unfold free_fragment_buffer, get_fragment_ptr_from_data_novalidate, bind.
  destruct (ptr_eqb NULL buf) eqn:E; [discriminate|].
  assert (Hnn : buf <> NULL) by (intros ->; cbn in E; discriminate).
  set (frag := ptr_sub buf sizeof_fragment_header_t).
  destruct (sentinel m frag) as [s|] eqn:Hs.
  - rewrite (magic_mismatch_eval _ _ _ Hs).
    destruct (s =? MAGIC) eqn:Heq; cbn [negb]; [|discriminate].
    apply Z.eqb_eq in Heq. subst s.
    destruct (free frag m) as [[] m3|]; [|discriminate].
    intros [= <-]. auto.
  - rewrite (magic_mismatch_unreadable _ _ Hs). discriminate.
Qed.

(** C10: [free_fragment_buffer] validates the sentinel at its argument
    minus the header size.  In every memory, a call that returns 0 has
    found the magic constant there and has passed that address to [free];
    a call that finds another value there returns -1, frees nothing and
    only logs the diagnostic; a call that cannot read it is undefined.
    A buffer that [alloc_fragment_buffer] created is a live object that
    starts with the magic constant, and for every such buffer, in whatever
    memory it lives: the call with the data pointer (fragment pointer plus
    header size) returns 0 and releases the whole allocation; among the
    pointers into the buffer the data pointer is the only one on which the
    call returns 0, and no call with another argument returns 0 with this
    allocation released; the call with the fragment pointer itself reads
    before the start of the object. *)
Theorem free_fragment_buffer_takes_data_pointer :
  (forall m buf m',
     free_fragment_buffer MAGIC buf m = Ok 0 m' ->
     buf <> NULL /\
     sentinel m (get_fragment_ptr_from_data_novalidate buf) = Some MAGIC /\
     free (get_fragment_ptr_from_data_novalidate buf) m = Ok tt m') /\
  (forall m buf s,
     buf <> NULL ->
     sentinel m (get_fragment_ptr_from_data_novalidate buf) = Some s ->
     s <> MAGIC ->
     free_fragment_buffer MAGIC buf m
       = Ok (-1) (logged "Invalid fragment header (free fragment)!" m)) /\
  (forall m buf,
     buf <> NULL ->
     sentinel m (get_fragment_ptr_from_data_novalidate buf) = None ->
     free_fragment_buffer MAGIC buf m = Stuck UndefinedBehaviour) /\
  (forall m size p m1,
     0 <= MAGIC < 2 ^ 32 ->
     alloc_fragment_buffer MAGIC size m = Ok p m1 ->
     live_fragment MAGIC m1 p) /\
  (forall m p,
     live_fragment MAGIC m p ->
     (exists bytes m2,
        heap m !! block_of p = Some bytes /\
        free_fragment_buffer MAGIC (get_data_ptr_from_fragment p) m
          = Ok 0 m2 /\
        heap m2 = delete (block_of p) (heap m) /\
        avail m2 = avail m + Z.of_nat (length bytes)) /\
     (forall ofs,
        (exists m2,
            free_fragment_buffer MAGIC (Ptr (block_of p) ofs) m = Ok 0 m2)
        <-> Ptr (block_of p) ofs = get_data_ptr_from_fragment p) /\
     (forall q,
        (exists m2, free_fragment_buffer MAGIC q m = Ok 0 m2 /\
                    heap m2 !! block_of p = None)
        <-> q = get_data_ptr_from_fragment p) /\
     free_fragment_buffer MAGIC p m = Stuck UndefinedBehaviour).
Proof.
  split; [intros m buf m'; apply free_fragment_buffer_success_inv|].
  split; [|split; [|split]].
  - intros m buf s Hnn Hs Hne.
    unfold free_fragment_buffer, bind.
    rewrite (ptr_eqb_NULL_l _ Hnn).
    unfold get_fragment_ptr_from_data_novalidate in Hs.
    rewrite (magic_mismatch_eval _ _ _ Hs).
    apply Z.eqb_neq in Hne. rewrite Hne. reflexivity.
  - intros m buf Hnn Hs.
    unfold free_fragment_buffer, bind.
    rewrite (ptr_eqb_NULL_l _ Hnn).
    unfold get_fragment_ptr_from_data_novalidate in Hs.
    rewrite (magic_mismatch_unreadable _ _ Hs). reflexivity.
  - intros m size p m1 HM H.
    destruct (fresh_fragment _ _ _ _ HM H)
      as (b & bytes & -> & Hb0 & _ & Hheap & _ & _ & Hs).
    exists b, bytes. split; [reflexivity|]. split; [exact Hb0|].
    split; [|exact Hs]. rewrite Hheap. apply lookup_insert_eq.
  - intros m p (b & bytes & -> & Hb0 & Hb & Hs). cbn [block_of].
    assert (Hnn : Ptr b 0 <> NULL) by (unfold NULL; congruence).
    pose proof (free_fragment_buffer_at_base m b bytes Hnn Hb Hs) as Hfree.
    assert (Hinto : forall ofs m2,
               free_fragment_buffer MAGIC (Ptr b ofs) m = Ok 0 m2 ->
               Ptr b ofs = get_data_ptr_from_fragment (Ptr b 0)).
    { intros ofs m2 Hq.
      apply free_fragment_buffer_success_inv in Hq.
      destruct Hq as (_ & _ & Hf). apply free_inv in Hf.
      unfold get_fragment_ptr_from_data_novalidate, ptr_sub in Hf.
      unfold get_data_ptr_from_fragment, ptr_add.
      destruct Hf as [[[= E _] _]|(b' & bytes' & [= _ E] & _)];
        [contradiction|].
      f_equal. lia. }
    split; [|split; [|split]].
    + eexists bytes, _. split; [exact Hb|]. split; [exact Hfree|].
      split; reflexivity.
    + intros ofs. split.
      * intros [m2 Hq]. exact (Hinto ofs m2 Hq).
      * intros ->. eexists. exact Hfree.
    + intros q. split.
      * intros (m2 & Hq & Hgone). destruct q as [b' ofs].
        destruct (decide (b' = b)) as [->|Hne]; [exact (Hinto ofs m2 Hq)|].
        apply free_fragment_buffer_success_inv in Hq.
        destruct Hq as (_ & _ & Hf). apply free_inv in Hf.
        unfold get_fragment_ptr_from_data_novalidate, ptr_sub in Hf.
        destruct Hf as [[_ ->]|(b2 & bytes2 & [= <- _] & _ & Hd)].
        -- rewrite Hb in Hgone. discriminate.
        -- rewrite Hd, lookup_delete_ne, Hb in Hgone by exact Hne.
           discriminate.
      * intros ->. eexists. split; [exact Hfree|]. apply lookup_delete_eq.
    + unfold free_fragment_buffer, bind.
      rewrite (ptr_eqb_NULL_l _ Hnn).
      rewrite magic_mismatch_unreadable; [reflexivity|].
      unfold sentinel, ptr_sub, ptr_add, peek_u32, sizeof_fragment_header_t,
        off_magic.
      rewrite Hb. reflexivity.
Qed.

End HelperProperties.

(** ** Bulk resolution of data pointers *)

Lemma count_non_null_app (l1 l2 : list ptr) :
  count_non_null (l1 ++ l2) = count_non_null l1 + count_non_null l2.
Proof. induction l1 as [|p l1 IH]; simpl; [reflexivity | rewrite IH; lia]. Qed.

Lemma load_ptr_eval (m : mem) (a pos : nat) (l : list ptr) (i : nat)
    (p : ptr) :
  arrays m !! a = Some l -> l !! (pos + i)%nat = Some p ->
  load_ptr (PPtr a (Z.of_nat pos)) (Z.of_nat i) m = Ok p m.
Proof.
  intros Ha Hi. unfold load_ptr. rewrite Ha, <- Nat2Z.inj_add.
  assert (H0 : (0 <=? Z.of_nat (pos + i)) = true) by (apply Z.leb_le; lia).
  rewrite H0, Nat2Z.id, Hi. reflexivity.
Qed.

Lemma store_ptr_eval (m : mem) (a pos : nat) (l : list ptr) (i : nat)
    (p : ptr) :
  arrays m !! a = Some l -> (pos + i < length l)%nat ->
  store_ptr (PPtr a (Z.of_nat pos)) (Z.of_nat i) p m =
    Ok tt (set_arrays (<[a := <[(pos + i)%nat := p]> l]> (arrays m)) m).
Proof.
  intros Ha Hi. unfold store_ptr. rewrite Ha, <- Nat2Z.inj_add.
  assert (H0 : (0 <=? Z.of_nat (pos + i))
               && (Z.of_nat (pos + i) <? Z.of_nat (length l)) = true).
  { apply andb_true_iff. split; [apply Z.leb_le|apply Z.ltb_lt]; lia. }
  rewrite H0, Nat2Z.id. reflexivity.
Qed.

(** The loop, started at index [i] with [n] iterations to go, [fs] being
    the entries of [fragments] at the call: as long as no write hits an
    entry of [fragments] that is read later, it replaces the entries
    [i .. i+n-1] of the output and adds the number of non-null fragments
    among them to the count.  The two pointers may point into one array. *)
Lemma data_ptr_array_loop_spec (fs : list ptr) (da fa dpos fpos : nat) :
  forall (n i : nat) (num : Z) (m : mem) (fcur dcur : list ptr),
    arrays m !! fa = Some fcur ->
    arrays m !! da = Some dcur ->
    (forall j, (i <= j < i + n)%nat -> fcur !! (fpos + j)%nat = fs !! j) ->
    (i + n <= length fs)%nat ->
    (dpos + i + n <= length dcur)%nat ->
    da <> fa \/ (dpos <= fpos)%nat \/ (fpos + i + n <= dpos)%nat ->
    data_ptr_array_loop n (PPtr da (Z.of_nat dpos)) (PPtr fa (Z.of_nat fpos))
      (Z.of_nat i) num m =
      Ok (num + count_non_null (take n (drop i fs)))
         (set_arrays
            (<[da :=
                 take (dpos + i) dcur ++ (data_ptr_of <$> take n (drop i fs))
                 ++ drop (dpos + i + n) dcur]> (arrays m)) m).
Proof.
  induction n as [|n IH]; intros i num m fcur dcur Hf Hd Hfs Hlf Hld Hclear.
  - cbn [data_ptr_array_loop]. rewrite take_0. cbn [count_non_null].
    rewrite fmap_nil. cbn [app].
    unfold ret. rewrite Z.add_0_r, Nat.add_0_r, take_drop.
    rewrite (insert_id _ _ _ Hd). destruct m; reflexivity.
  - destruct (lookup_lt_is_Some_2 fs i) as [frag Hfrag]; [lia|].
    assert (Hload : load_ptr (PPtr fa (Z.of_nat fpos)) (Z.of_nat i) m
                    = Ok frag m).
    { eapply load_ptr_eval; [exact Hf|]. rewrite Hfs by lia. exact Hfrag. }
    rewrite (drop_S _ _ _ Hfrag).
    cbn [data_ptr_array_loop take count_non_null fmap list_fmap].
    unfold bind at 1. rewrite Hload.
    set (v := data_ptr_of frag).
    set (k := (dpos + i)%nat).
    set (m1 := set_arrays (<[da := <[k := v]> dcur]> (arrays m)) m).
    assert (Hstore : store_ptr (PPtr da (Z.of_nat dpos)) (Z.of_nat i) v m
                     = Ok tt m1)
      by (apply (store_ptr_eval _ _ _ _ _ _ Hd); lia).
    assert (Hd1 : arrays m1 !! da = Some (<[k := v]> dcur))
      by (unfold m1, set_arrays; cbn [arrays]; apply lookup_insert_eq).
    assert (Hf1 : exists fcur1, arrays m1 !! fa = Some fcur1 /\
                    forall j, (S i <= j < S i + n)%nat ->
                              fcur1 !! (fpos + j)%nat = fs !! j).
    { unfold m1, set_arrays. cbn [arrays].
      destruct (decide (da = fa)) as [E|E].
      - exists (<[k := v]> dcur). rewrite E, lookup_insert_eq.
        split; [reflexivity|]. intros j Hj.
        rewrite list_lookup_insert_ne by (unfold k; lia).
        rewrite E, Hf in Hd. injection Hd as <-. apply Hfs. lia.
      - exists fcur. rewrite lookup_insert_ne by exact E.
        split; [exact Hf|]. intros j Hj. apply Hfs. lia. }
    destruct Hf1 as (fcur1 & Hf1 & Hfs1).
    assert (Hrec := IH (S i) (num + (if ptr_eqb frag NULL then 0 else 1))
                      m1 fcur1 (<[k := v]> dcur) Hf1 Hd1 Hfs1).
    rewrite length_insert in Hrec.
    specialize (Hrec ltac:(lia) ltac:(lia) ltac:(lia)).
    replace (Z.of_nat (S i)) with (Z.of_nat i + 1) in Hrec by lia.
    assert (Hout :
      set_arrays
        (<[da :=
             take (dpos + S i) (<[k := v]> dcur)
             ++ (data_ptr_of <$> take n (drop (S i) fs))
             ++ drop (dpos + S i + n) (<[k := v]> dcur)]> (arrays m1)) m1
      = set_arrays
          (<[da :=
               take k dcur ++ (v :: (data_ptr_of <$> take n (drop (S i) fs)))
               ++ drop (k + S n) dcur]> (arrays m)) m).
    { unfold m1, set_arrays. cbn [heap arrays avail errlog].
      rewrite insert_insert_eq. do 2 f_equal.
      replace (dpos + S i)%nat with (S k) by (unfold k; lia).
      rewrite (take_S_r _ _ v)
        by (apply list_lookup_insert_eq; unfold k; lia).
      rewrite take_insert_ge by lia.
      rewrite drop_insert_lt by lia.
      rewrite <- app_assoc. cbn [app].
      replace (S k + n)%nat with (k + S n)%nat by lia. reflexivity. }
    rewrite Hout in Hrec.
    unfold v, data_ptr_of in Hstore.
    destruct (ptr_eqb frag NULL) eqn:Hnull.
    + unfold bind at 1. rewrite Hstore.
      rewrite Z.add_0_r in Hrec. rewrite Hrec. f_equal; lia.
    + unfold bind at 1. unfold get_data_ptr_from_fragment. rewrite Hstore.
      rewrite Hrec. f_equal; lia.
Qed.

(** The whole call, when its writes spare the entries still to be read. *)
Lemma get_data_ptr_array_from_fragments_run
    (m : mem) (da fa dpos fpos n : nat) (fl dl : list ptr) :
  arrays m !! fa = Some fl ->
  arrays m !! da = Some dl ->
  (fpos + n <= length fl)%nat ->
  (dpos + n <= length dl)%nat ->
  writes_spare_pending_reads (PPtr da (Z.of_nat dpos))
    (PPtr fa (Z.of_nat fpos)) (Z.of_nat n) ->
  get_data_ptr_array_from_fragments (PPtr da (Z.of_nat dpos))
    (PPtr fa (Z.of_nat fpos)) (Z.of_nat n) m =
    Ok (count_non_null (take n (drop fpos fl)))
       (set_arrays
          (<[da := take dpos dl ++ (data_ptr_of <$> take n (drop fpos fl))
                   ++ drop (dpos + n) dl]> (arrays m)) m).
Proof.
  intros Hf Hd Hlf Hld Hclear. unfold writes_spare_pending_reads in Hclear.
  unfold get_data_ptr_array_from_fragments. rewrite Nat2Z.id.
  change 0 with (Z.of_nat 0) at 1.
  rewrite (data_ptr_array_loop_spec (take n (drop fpos fl)) da fa dpos fpos
             n 0 0 m fl dl Hf Hd).
  - rewrite drop_0, !Nat.add_0_r, Z.add_0_l, take_take, Nat.min_id.
    reflexivity.
  - intros j Hj. rewrite lookup_take_lt, lookup_drop by lia. reflexivity.
  - rewrite length_take, length_drop. lia.
  - lia.
  - lia.
Qed.

(** C8, as the code has it: [fragments] and [data_array] point at entries
    [fpos] and [dpos] of arrays with at least [n] entries from there on
    (possibly of one array), and no write hits an entry of [fragments]
    that is still to be read.  Then [get_data_ptr_array_from_fragments]
    writes at every position [i < n] of the output the null pointer if
    [fragments[i]] is null and [fragments[i] + sizeof(fragment_header_t)]
    otherwise, leaves every other entry, every other array and the heap
    alone, and returns the number of non-null pointers among the [n]
    fragment pointers. *)
Theorem get_data_ptr_array_from_fragments_spec
    (m : mem) (da fa dpos fpos n : nat) (fl dl : list ptr) :
  arrays m !! fa = Some fl ->
  arrays m !! da = Some dl ->
  (fpos + n <= length fl)%nat ->
  (dpos + n <= length dl)%nat ->
  writes_spare_pending_reads (PPtr da (Z.of_nat dpos))
    (PPtr fa (Z.of_nat fpos)) (Z.of_nat n) ->
  exists m' out,
    get_data_ptr_array_from_fragments (PPtr da (Z.of_nat dpos))
      (PPtr fa (Z.of_nat fpos)) (Z.of_nat n) m
      = Ok (count_non_null (take n (drop fpos fl))) m' /\
    m' = set_arrays (<[da := out]> (arrays m)) m /\
    heap m' = heap m /\
    out = take dpos dl ++ (data_ptr_of <$> take n (drop fpos fl))
          ++ drop (dpos + n) dl /\
    length out = length dl /\
    (forall i, (i < n)%nat ->
               out !! (dpos + i)%nat = data_ptr_of <$> fl !! (fpos + i)%nat) /\
    (forall j, (j < dpos)%nat \/ (dpos + n <= j)%nat -> out !! j = dl !! j).
Proof.
  intros Hf Hd Hlf Hld Hclear.
  rewrite (get_data_ptr_array_from_fragments_run m da fa dpos fpos n fl dl
             Hf Hd Hlf Hld Hclear).
  set (fs := take n (drop fpos fl)).
  assert (Hlen : length (data_ptr_of <$> fs) = n)
    by (unfold fs; rewrite length_fmap, length_take, length_drop; lia).
  assert (Hpre : length (take dpos dl) = dpos) by (rewrite length_take; lia).
  eexists _, _. split; [reflexivity|]. split; [reflexivity|].
  split; [reflexivity|]. split; [reflexivity|]. split; [|split].
  - rewrite !length_app, Hpre, Hlen, length_drop. lia.
  - intros i Hi. rewrite lookup_app_r by lia.
    rewrite Hpre, lookup_app_l by lia.
    replace (dpos + i - dpos)%nat with i by lia.
    unfold fs. rewrite list_lookup_fmap, lookup_take_lt, lookup_drop by lia.
    reflexivity.
  - intros j [Hj|Hj].
    + rewrite lookup_app_l by lia. apply lookup_take_lt. exact Hj.
    + rewrite lookup_app_r by lia. rewrite Hpre, lookup_app_r by lia.
      rewrite Hlen, lookup_drop. f_equal. lia.
Qed.

(** ** Binary64 division of integers

    The quotient of two [int]s, computed in [double], is close enough to
    the exact quotient for [ceill] to return the exact ceiling. *)

Module DoubleFacts.

Import Double.

(** *** Number of digits *)

Lemma digits2_pos_bounds (p : positive) :
  2 ^ (Zpos (digits2_pos p) - 1) <= Zpos p < 2 ^ Zpos (digits2_pos p).
Proof.
  induction p as [p IH|p IH|]; cbn [digits2_pos].
  - rewrite Pos2Z.inj_succ, (Pos2Z.inj_xI p).
    set (d := Zpos (digits2_pos p)) in *.
    assert (Hd : 0 < d) by (unfold d; lia).
    replace (Z.succ d - 1) with (Z.succ (d - 1)) by lia.
    rewrite (Z.pow_succ_r 2 (d - 1)), (Z.pow_succ_r 2 d) by lia. lia.
  - rewrite Pos2Z.inj_succ, (Pos2Z.inj_xO p).
    set (d := Zpos (digits2_pos p)) in *.
    assert (Hd : 0 < d) by (unfold d; lia).
    replace (Z.succ d - 1) with (Z.succ (d - 1)) by lia.
    rewrite (Z.pow_succ_r 2 (d - 1)), (Z.pow_succ_r 2 d) by lia. lia.
  - cbn. lia.
Qed.

Lemma digits2_pos_unique (p : positive) (n : Z) :
  2 ^ (n - 1) <= Zpos p < 2 ^ n -> Zpos (digits2_pos p) = n.
Proof.
  intros [Hlo Hhi]. pose proof (digits2_pos_bounds p) as [Blo Bhi].
  set (d := Zpos (digits2_pos p)) in *.
  assert (Hd : 0 < d) by (unfold d; lia).
  destruct (Z_lt_le_dec n 1) as [Hn|Hn].
  { assert (2 ^ n <= 2 ^ 0) by
      (destruct (Z_lt_le_dec n 0);
       [rewrite Z.pow_neg_r by lia; cbn; lia
       |apply Z.pow_le_mono_r; lia]).
    cbn in *. lia. }
  destruct (Z.lt_trichotomy d n) as [H|[H|H]]; [|exact H|].
  - assert (2 ^ d <= 2 ^ (n - 1)) by (apply Z.pow_le_mono_r; lia). lia.
  - assert (2 ^ n <= 2 ^ (d - 1)) by (apply Z.pow_le_mono_r; lia). lia.
Qed.

Lemma Zdigits2_unique (z n : Z) :
  2 ^ (n - 1) <= z < 2 ^ n -> 0 < z -> Zdigits2 z = n.
Proof.
  intros H Hz. destruct z as [|p|p]; try lia.
  apply digits2_pos_unique. exact H.
Qed.

Lemma Zdigits2_bounds (z : Z) :
  0 < z -> 2 ^ (Zdigits2 z - 1) <= z < 2 ^ Zdigits2 z /\ 0 < Zdigits2 z.
Proof.
  intros Hz. destruct z as [|p|p]; try lia.
  split; [apply digits2_pos_bounds | cbn; lia].
Qed.

(** *** Shifting and rounding *)

Lemma shr_1_spec (m : Z) (r s : bool) :
  0 <= m ->
  shr_1 (Build_shr_record m r s) =
    Build_shr_record (m / 2) (Z.odd m) (r || s).
Proof.
  intros Hm. destruct m as [|p|p]; try lia.
  - reflexivity.
  - destruct p as [p|p|]; cbn [shr_1].
    + assert (Z.pos p~1 / 2 = Z.pos p) as ->
        by (symmetry; apply (Z.div_unique _ 2 _ 1); lia).
      reflexivity.
    + assert (Z.pos p~0 / 2 = Z.pos p) as ->
        by (symmetry; apply (Z.div_unique _ 2 _ 0); lia).
      reflexivity.
    + reflexivity.
Qed.

Lemma shr_record_of_loc_m (m : Z) (l : location) :
  shr_m (shr_record_of_loc m l) = m.
Proof. destruct l as [|[]]; reflexivity. Qed.

Lemma loc_of_shr_record_of_loc (m : Z) (l : location) :
  loc_of_shr_record (shr_record_of_loc m l) = l.
Proof. destruct l as [|[]]; reflexivity. Qed.

Lemma round_nearest_even_cases (mx : Z) (lx : location) :
  round_nearest_even mx lx = mx \/
  (round_nearest_even mx lx = mx + 1 /\ lx <> loc_Exact).
Proof.
  destruct lx as [|[]]; cbn [round_nearest_even];
    try destruct (Z.even mx);
    first [ left; reflexivity | right; split; [reflexivity|discriminate] ].
Qed.

Lemma fexp_normal (e : Z) : -1021 <= e -> fexp prec emax e = e - 53.
Proof. unfold fexp, SpecFloat.emin, prec, emax. lia. Qed.

Lemma shr_fexp_53 (mx ex : Z) (lx : location) :
  2 ^ 52 <= mx < 2 ^ 53 -> -1074 <= ex ->
  shr_fexp prec emax mx ex lx = (shr_record_of_loc mx lx, ex).
Proof.
  intros Hm He. unfold shr_fexp.
  rewrite (Zdigits2_unique mx 53) by (cbn; lia).
  rewrite fexp_normal by lia.
  replace (53 + ex - 53 - ex) with 0 by lia. reflexivity.
Qed.

Lemma shr_fexp_54 (mx ex : Z) (lx : location) :
  2 ^ 53 <= mx < 2 ^ 54 -> -1075 <= ex ->
  shr_fexp prec emax mx ex lx = (shr_1 (shr_record_of_loc mx lx), ex + 1).
Proof.
  intros Hm He. unfold shr_fexp.
  rewrite (Zdigits2_unique mx 54) by (cbn; lia).
  rewrite fexp_normal by lia.
  replace (54 + ex - 53 - ex) with 1 by lia. reflexivity.
Qed.

(** The end of [binary_round_aux]: a rounded mantissa of 53 digits is
    kept, the mantissa 2^53 is halved. *)
Lemma binary_round_aux_finish (mr e : Z) :
  2 ^ 52 <= mr <= 2 ^ 53 -> -1074 <= e <= 970 ->
  exists m' e',
    (let '(mrs, e'') := shr_fexp prec emax mr e loc_Exact in
     match shr_m mrs with
     | Z0 => S754_zero false
     | Zpos m => if e'' <=? emax - prec
                 then S754_finite false m e'' else S754_infinity false
     | Zneg _ => S754_nan
     end) = S754_finite false m' e' /\
    ((Zpos m' = mr /\ e' = e) \/ (2 * Zpos m' = mr /\ e' = e + 1)).
Proof.
  intros Hm He. destruct (Z_lt_le_dec mr (2 ^ 53)) as [Hlt|Hge].
  - rewrite shr_fexp_53 by lia. cbn [shr_record_of_loc shr_m].
    destruct mr as [|p|p]; try lia.
    assert (Hle : (e <=? emax - prec) = true)
      by (apply Z.leb_le; unfold emax, prec; lia).
    rewrite Hle. exists p, e. split; [reflexivity|].
    left. split; reflexivity.
  - assert (mr = 2 ^ 53) as -> by lia.
    rewrite shr_fexp_54 by lia.
    assert (Hle : (e + 1 <=? emax - prec) = true)
      by (apply Z.leb_le; unfold emax, prec; lia).
    cbn [shr_record_of_loc]. rewrite shr_1_spec by lia.
    cbn [shr_m]. change (2 ^ 53 / 2) with (Zpos (2 ^ 52)).
    rewrite Hle. exists (2 ^ 52)%positive, (e + 1). split; [reflexivity|].
    right. split; [reflexivity|reflexivity].
Qed.

Lemma shifted_loc_inexact (mx : Z) (lx : location) :
  0 <= mx ->
  loc_of_shr_record (shr_1 (shr_record_of_loc mx lx)) <> loc_Exact ->
  lx <> loc_Exact \/ mx mod 2 <> 0.
Proof.
  intros Hm H. destruct lx as [|c]; [|left; discriminate].
  right. cbn [shr_record_of_loc] in H. rewrite shr_1_spec in H by lia.
  rewrite Zmod_odd. destruct (Z.odd mx); [lia|].
  exfalso. apply H. reflexivity.
Qed.

(** [binary_round_aux] on a mantissa of 53 or 54 digits: the result is the
    mantissa, shifted by [k] = 0 or 1 digit, or its successor, and it is
    the successor only if some digit was lost. *)
Lemma binary_round_aux_near (mx ex : Z) (lx : location) :
  2 ^ 52 <= mx < 2 ^ 54 -> -1074 <= ex <= 960 ->
  exists m e M k,
    binary_round_aux prec emax false mx ex lx = S754_finite false m e /\
    k = (if mx <? 2 ^ 53 then 0 else 1) /\
    ((Zpos m = M /\ e = ex + k) \/ (2 * Zpos m = M /\ e = ex + k + 1)) /\
    (M = mx / 2 ^ k \/
     (M = mx / 2 ^ k + 1 /\ (lx <> loc_Exact \/ mx mod 2 ^ k <> 0))).
Proof.
  intros Hm He. unfold binary_round_aux.
  destruct (mx <? 2 ^ 53) eqn:Hlt.
  - apply Z.ltb_lt in Hlt. rewrite shr_fexp_53 by lia.
    rewrite shr_record_of_loc_m, loc_of_shr_record_of_loc.
    assert (H1 : mx / 2 ^ 0 = mx) by (change (2 ^ 0) with 1; apply Z.div_1_r).
    destruct (round_nearest_even_cases mx lx) as [Hr|[Hr Hl]]; rewrite Hr.
    + destruct (binary_round_aux_finish mx ex) as (m & e & -> & Hrep);
        [lia|lia|].
      exists m, e, mx, 0. rewrite Z.add_0_r, H1.
      split; [reflexivity|]. split; [reflexivity|]. split; [exact Hrep|].
      left. reflexivity.
    + destruct (binary_round_aux_finish (mx + 1) ex) as (m & e & -> & Hrep);
        [lia|lia|].
      exists m, e, (mx + 1), 0. rewrite Z.add_0_r, H1.
      split; [reflexivity|]. split; [reflexivity|]. split; [exact Hrep|].
      right. split; [reflexivity|]. left. exact Hl.
  - apply Z.ltb_ge in Hlt. rewrite shr_fexp_54 by lia.
    set (rec := shr_1 (shr_record_of_loc mx lx)).
    assert (Hrec : shr_m rec = mx / 2).
    { unfold rec. destruct lx as [|[]]; cbn [shr_record_of_loc];
        rewrite shr_1_spec by lia; reflexivity. }
    rewrite Hrec.
    assert (Hhalf : 2 ^ 52 <= mx / 2 < 2 ^ 53).
    { split; [apply Z.div_le_lower_bound | apply Z.div_lt_upper_bound];
        cbn in *; lia. }
    change (2 ^ 1) with 2.
    destruct (round_nearest_even_cases (mx / 2) (loc_of_shr_record rec))
      as [Hr|[Hr Hl]]; rewrite Hr.
    + destruct (binary_round_aux_finish (mx / 2) (ex + 1))
        as (m & e & -> & Hrep); [lia|lia|].
      exists m, e, (mx / 2), 1.
      split; [reflexivity|]. split; [reflexivity|]. split; [exact Hrep|].
      left. reflexivity.
    + destruct (binary_round_aux_finish (mx / 2 + 1) (ex + 1))
        as (m & e & -> & Hrep); [lia|lia|].
      exists m, e, (mx / 2 + 1), 1.
      apply shifted_loc_inexact in Hl; [|lia].
      split; [reflexivity|]. split; [reflexivity|]. split; [exact Hrep|].
      right. split; [reflexivity|]. exact Hl.
Qed.

(** *** Conversion from integers *)

Lemma binary_round_aux_exact (p : positive) (ex : Z) :
  2 ^ 52 <= Zpos p < 2 ^ 53 -> -1074 <= ex <= 970 ->
  binary_round_aux prec emax false (Zpos p) ex loc_Exact =
    S754_finite false p ex.
Proof.
  intros Hp He. unfold binary_round_aux.
  rewrite shr_fexp_53 by lia.
  cbn [shr_record_of_loc shr_m loc_of_shr_record round_nearest_even].
  rewrite shr_fexp_53 by lia. cbn [shr_record_of_loc shr_m].
  assert (Hle : (ex <=? emax - prec) = true)
    by (apply Z.leb_le; unfold emax, prec; lia).
  rewrite Hle. reflexivity.
Qed.

Lemma iter_xO_pow (p q : positive) :
  Zpos (Pos.iter xO p q) = Zpos p * 2 ^ Zpos q.
Proof.
  induction q as [|q IH] using Pos.peano_ind.
  - cbn [Pos.iter]. rewrite (Pos2Z.inj_xO p). change (2 ^ 1) with 2. lia.
  - rewrite Pos.iter_succ, (Pos2Z.inj_xO (Pos.iter xO p q)), IH.
    rewrite Pos2Z.inj_succ, Z.pow_succ_r by lia. lia.
Qed.

(** A positive integer of at most 53 digits converts to itself, with a
    mantissa of exactly 53 digits. *)
Lemma of_int_pos (z : Z) :
  0 < z < 2 ^ 53 ->
  exists mz,
    of_int z = S754_finite false mz (Zdigits2 z - 53) /\
    Zpos mz = z * 2 ^ (53 - Zdigits2 z) /\
    2 ^ 52 <= Zpos mz < 2 ^ 53 /\
    0 < Zdigits2 z <= 53.
Proof.
  intros Hz. destruct (Zdigits2_bounds z) as [[Hlo Hhi] Hd]; [lia|].
  set (d := Zdigits2 z) in *.
  assert (Hd53 : d <= 53).
  { destruct (Z_le_gt_dec d 53) as [H|H]; [exact H|].
    assert (2 ^ 53 <= 2 ^ (d - 1)) by (apply Z.pow_le_mono_r; lia). lia. }
  assert (Hscale : 2 ^ 52 <= z * 2 ^ (53 - d) < 2 ^ 53).
  { assert (E1 : 2 ^ 52 = 2 ^ (d - 1) * 2 ^ (53 - d))
      by (rewrite <- Z.pow_add_r by lia; f_equal; lia).
    assert (E2 : 2 ^ 53 = 2 ^ d * 2 ^ (53 - d))
      by (rewrite <- Z.pow_add_r by lia; f_equal; lia).
    assert (0 < 2 ^ (53 - d)) by (apply Z.pow_pos_nonneg; lia).
    rewrite E1, E2. nia. }
  destruct z as [|p|p]; try lia.
  unfold of_int, binary_normalize, binary_round, shl_align.
  change (Zpos (digits2_pos p)) with d.
  rewrite fexp_normal by lia.
  destruct (d + 0 - 53 - 0) as [|t|t] eqn:Ht; try lia.
  - assert (d = 53) by lia.
    replace (53 - d) with 0 in * by lia. rewrite Z.mul_1_r in Hscale.
    rewrite binary_round_aux_exact by lia.
    exists p. rewrite Z.mul_1_r. repeat split; try lia; f_equal; lia.
  - assert (Hm : Zpos (Pos.iter xO p t) = Zpos p * 2 ^ (53 - d))
      by (rewrite iter_xO_pow; do 2 f_equal; lia).
    rewrite binary_round_aux_exact by lia.
    exists (Pos.iter xO p t). repeat split; try lia; f_equal; lia.
Qed.

(** *** Division *)

Lemma new_location_inexact (nb_steps r : Z) :
  new_location nb_steps r <> loc_Exact -> r <> 0.
Proof.
  intros H ->. apply H. unfold new_location, new_location_even,
    new_location_odd. destruct (Z.even nb_steps); reflexivity.
Qed.

(** The quotient of two numbers with mantissas of 53 digits: with
    [N / D] the exact quotient of the mantissas, scaled by 2^53 and shifted
    by [k] = 0 or 1 digit, the mantissa [M] of the result is its integer
    part or the successor of it, and the successor only if the quotient is
    not an integer. *)
Lemma div_normal (m1 m2 : positive) (e1 e2 : Z) :
  2 ^ 52 <= Zpos m1 < 2 ^ 53 ->
  2 ^ 52 <= Zpos m2 < 2 ^ 53 ->
  -60 <= e1 <= 60 -> -60 <= e2 <= 60 ->
  exists m e M k,
    div (S754_finite false m1 e1) (S754_finite false m2 e2)
      = S754_finite false m e /\
    (k = 0 \/ k = 1) /\
    ((Zpos m = M /\ e = e1 - e2 - 53 + k) \/
     (2 * Zpos m = M /\ e = e1 - e2 - 53 + k + 1)) /\
    (M = (Zpos m1 * 2 ^ 53) / (Zpos m2 * 2 ^ k) \/
     (M = (Zpos m1 * 2 ^ 53) / (Zpos m2 * 2 ^ k) + 1 /\
      (Zpos m1 * 2 ^ 53) mod (Zpos m2 * 2 ^ k) <> 0)).
Proof.
  intros H1 H2 He1 He2.
  unfold div, SFdiv, SFdiv_core_binary. cbn [xorb].
  rewrite (Zdigits2_unique (Zpos m1) 53), (Zdigits2_unique (Zpos m2) 53)
    by (cbn; lia).
  rewrite fexp_normal by lia.
  replace (Z.min (53 + e1 - (53 + e2) - 53) (e1 - e2))
    with (e1 - e2 - 53) by lia.
  replace (e1 - e2 - (e1 - e2 - 53)) with 53 by lia.
  rewrite Z.shiftl_mul_pow2 by lia.
  set (N := Zpos m1 * 2 ^ 53).
  destruct (Z.div_eucl N (Zpos m2)) as [q r] eqn:Hqr.
  assert (Hq : q = N / Zpos m2) by (unfold Z.div; rewrite Hqr; reflexivity).
  assert (Hr : r = N mod Zpos m2)
    by (unfold Z.modulo; rewrite Hqr; reflexivity).
  assert (Hqb : 2 ^ 52 <= q < 2 ^ 54).
  { rewrite Hq. split.
    - apply Z.div_le_lower_bound; [lia|]. unfold N. cbn in *. lia.
    - apply Z.div_lt_upper_bound; [lia|]. unfold N. cbn in *. lia. }
  destruct (binary_round_aux_near q (e1 - e2 - 53)
              (new_location (Zpos m2) r) Hqb ltac:(lia))
    as (m & e & M & k & Hres & Hk & Hrep & HM).
  exists m, e, M, k. split; [exact Hres|].
  assert (Hk01 : k = 0 \/ k = 1)
    by (destruct (q <? 2 ^ 53); [left|right]; exact Hk).
  split; [exact Hk01|]. split; [exact Hrep|].
  assert (Hpow : 0 < 2 ^ k) by (apply Z.pow_pos_nonneg; lia).
  assert (Hdd : q / 2 ^ k = N / (Zpos m2 * 2 ^ k))
    by (rewrite Hq; apply Z.div_div; lia).
  rewrite Hdd in HM. destruct HM as [HM|[HM Hinex]]; [left; exact HM|].
  right. split; [exact HM|].
  rewrite Z.rem_mul_r by lia. rewrite <- Hq, <- Hr.
  assert (0 <= r < Zpos m2) by (rewrite Hr; apply Z.mod_pos_bound; lia).
  assert (0 <= q mod 2 ^ k < 2 ^ k) by (apply Z.mod_pos_bound; lia).
  destruct Hinex as [Hl|Hl].
  - apply new_location_inexact in Hl. nia.
  - nia.
Qed.

(** *** The ceiling of the rounded quotient *)

Lemma ceil_div_unique (M T n : Z) :
  0 < T -> (n - 1) * T < M <= n * T -> - ((- M) / T) = n.
Proof.
  intros HT HM.
  assert (H : - n = (- M) / T)
    by (apply (Z.div_unique _ _ _ (n * T - M)); lia).
  lia.
Qed.

(** On a grid finer than [1 / g], the grid point at or right below
    [d / g], and the one above it when [d / g] is not on the grid, have
    the ceiling of [d / g] itself. *)
Lemma ceil_near_quotient (d g T M : Z) :
  0 <= d -> 0 < g -> g < T ->
  (M = (d * T) / g \/ (M = (d * T) / g + 1 /\ (d * T) mod g <> 0)) ->
  - ((- M) / T) = (d + g - 1) / g.
Proof.
  intros Hd Hg HT HM.
  set (n := (d + g - 1) / g).
  assert (Hn : g * n <= d + g - 1 < g * n + g).
  { pose proof (Z.div_mod (d + g - 1) g ltac:(lia)).
    pose proof (Z.mod_pos_bound (d + g - 1) g Hg). fold n in H. lia. }
  set (F := (d * T) / g) in *.
  assert (HF : g * F + (d * T) mod g = d * T)
    by (pose proof (Z.div_mod (d * T) g ltac:(lia)); fold F in H; lia).
  pose proof (Z.mod_pos_bound (d * T) g Hg) as Hr.
  assert (Hup : d * T <= n * g * T) by nia.
  assert (Hlo : (n - 1) * g * T + T <= d * T) by nia.
  apply ceil_div_unique; [lia|].
  destruct HM as [->|[-> Hne]]; split; nia.
Qed.

Lemma ceil_scaled_neg (v e : Z) :
  e < 0 -> ceil_scaled v e = - ((- v) / 2 ^ (- e)).
Proof.
  intros He. unfold ceil_scaled.
  destruct (0 <=? e) eqn:E; [apply Z.leb_le in E; lia|reflexivity].
Qed.

(** [ceill((double) d / (double) g)] is the exact ceiling of [d / g], for
    [d] and [g] in the range of [int], [d] not negative and [g]
    positive. *)
Lemma ceill_div_of_int (d g : Z) :
  0 <= d <= INT_MAX -> 0 < g <= INT_MAX ->
  ceill (div (of_int d) (of_int g)) = Int ((d + g - 1) / g).
Proof.
  unfold INT_MAX. intros Hd Hg.
  destruct (of_int_pos g) as (m2 & Eg & Hm2 & Hb2 & Hd2); [lia|].
  destruct (Z.eq_dec d 0) as [->|Hd0].
  { rewrite Eg. cbn [of_int binary_normalize div SFdiv ceill].
    f_equal. symmetry. apply Z.div_small. lia. }
  destruct (of_int_pos d) as (m1 & Ed & Hm1 & Hb1 & Hd1); [lia|].
  rewrite Ed, Eg.
  destruct (Zdigits2_bounds d) as [[Hdlo Hdhi] _]; [lia|].
  destruct (Zdigits2_bounds g) as [[Hglo Hghi] _]; [lia|].
  set (d1 := Zdigits2 d) in *. set (d2 := Zdigits2 g) in *.
  assert (Hd1' : d1 <= 31).
  { destruct (Z_le_gt_dec d1 31) as [H|H]; [exact H|].
    assert (2 ^ 31 <= 2 ^ (d1 - 1)) by (apply Z.pow_le_mono_r; lia). lia. }
  assert (Hd2' : d2 <= 31).
  { destruct (Z_le_gt_dec d2 31) as [H|H]; [exact H|].
    assert (2 ^ 31 <= 2 ^ (d2 - 1)) by (apply Z.pow_le_mono_r; lia). lia. }
  destruct (div_normal m1 m2 (d1 - 53) (d2 - 53) Hb1 Hb2
              ltac:(lia) ltac:(lia))
    as (m & e & M & k & -> & Hk & Hrep & HM).
  cbn [ceill cond_Zopp].
  (* the grid: T = 2^(-E), with E the exponent before renormalisation *)
  set (E := d1 - 53 - (d2 - 53) - 53 + k) in *.
  set (T := 2 ^ (- E)).
  set (c := 2 ^ (53 - d2 + k)).
  assert (HE : E <= -22) by (unfold E; lia).
  assert (HT : 0 < T) by (apply Z.pow_pos_nonneg; lia).
  assert (Hc : 0 < c) by (apply Z.pow_pos_nonneg; lia).
  assert (HN : Zpos m1 * 2 ^ 53 = (d * T) * c).
  { rewrite Hm1. unfold T, c, E.
    rewrite <- !Z.mul_assoc, <- !Z.pow_add_r by lia.
    do 2 f_equal. lia. }
  assert (HD : Zpos m2 * 2 ^ k = g * c).
  { rewrite Hm2. unfold c.
    rewrite <- !Z.mul_assoc, <- !Z.pow_add_r by lia. reflexivity. }
  rewrite HN, HD in HM.
  rewrite Z.div_mul_cancel_r, Z.mul_mod_distr_r in HM by lia.
  assert (HgT : g < T).
  { assert (2 ^ d2 <= T) by (apply Z.pow_le_mono_r; unfold E; lia). lia. }
  assert (HM' : M = d * T / g \/ (M = d * T / g + 1 /\ (d * T) mod g <> 0)).
  { destruct HM as [HM|[HM Hne]]; [left; exact HM|right].
    split; [exact HM|]. intros H0. apply Hne. rewrite H0. reflexivity. }
  f_equal. rewrite <- (ceil_near_quotient d g T M) by (assumption || lia).
  destruct Hrep as [[<- ->]|[<- ->]].
  - rewrite ceil_scaled_neg by lia. reflexivity.
  - rewrite ceil_scaled_neg by lia.
    replace (- (2 * Zpos m)) with (2 * - Zpos m) by lia.
    assert (HT2 : T = 2 * 2 ^ (- (E + 1))).
    { unfold T. rewrite <- Z.pow_succ_r by lia. f_equal. lia. }
    rewrite HT2, Z.div_mul_cancel_l; [reflexivity| |lia].
    assert (0 < 2 ^ (- (E + 1))) by (apply Z.pow_pos_nonneg; lia). lia.
Qed.

End DoubleFacts.

(** ** Data alignment *)

Section AlignmentProperties.

Variable CAUCHY : Z.
Variable sizeof_long : Z.

Lemma int_mul_small (a b : Z) : int_range (a * b) -> int_mul a b = Some (a * b).
Proof.
  unfold int_mul, int_rangeb, int_range. intros [H1 H2].
  apply Z.leb_le in H1. apply Z.leb_le in H2. rewrite H1, H2. reflexivity.
Qed.

Lemma alignment_multiple_granularity (instance : ec_backend) :
  0 < sizeof_long ->
  0 < granularity CAUCHY sizeof_long instance <= INT_MAX ->
  alignment_multiple_of CAUCHY sizeof_long instance
    = Some (granularity CAUCHY sizeof_long instance).
Proof.
  unfold alignment_multiple_of, granularity, INT_MAX.
  destruct instance as [id k m w]. cbn [common_id uargs_k uargs_w].
  intros Hsl Hg. destruct (CAUCHY =? id).
  - assert (Hkw : 0 < k * w <= k * w * (sizeof_long * 128)) by nia.
    rewrite int_mul_small by (unfold int_range, INT_MIN, INT_MAX; lia).
    cbn [mbind option_bind]. f_equal.
    unfold to_size_t. rewrite (Z.mod_small (k * w)) by lia.
    rewrite (Z.mod_small (sizeof_long * 128)) by nia.
    rewrite Z.mod_small by lia.
    unfold to_int. rewrite Z.mod_small by lia. lia.
  - apply int_mul_small. unfold int_range, INT_MIN, INT_MAX. lia.
Qed.

Lemma round_up_smallest_multiple (g d : Z) :
  0 < g -> smallest_multiple_ge g d ((d + g - 1) / g * g).
Proof.
  intros Hg. set (n := (d + g - 1) / g).
  assert (Hn : g * n <= d + g - 1 < g * n + g).
  { pose proof (Z.div_mod (d + g - 1) g ltac:(lia)).
    pose proof (Z.mod_pos_bound (d + g - 1) g Hg). fold n in H. lia. }
  split; [|split].
  - exists n. reflexivity.
  - lia.
  - intros r' [j ->] Hj.
    destruct (Z_lt_le_dec j n) as [Hlt|Hge]; [|nia].
    assert (j * g <= (n - 1) * g) by nia. lia.
Qed.

(** C3, as the code has it: when the granularity [g] of the backend
    ([k * w * (sizeof(long) * 128)] for Cauchy Reed-Solomon, [k * (w / 8)]
    for any other backend) is positive and fits in [int], and [data_len]
    is a non-negative [int] whose rounding up to a multiple of [g] fits in
    [int] as well, [get_aligned_data_size] returns the smallest multiple
    of [g] that is not below [data_len]. *)
Theorem get_aligned_data_size_rounds_up
    (instance : ec_backend) (data_len : Z) :
  0 < sizeof_long ->
  0 < granularity CAUCHY sizeof_long instance <= INT_MAX ->
  0 <= data_len <= INT_MAX ->
  (data_len + granularity CAUCHY sizeof_long instance - 1)
    / granularity CAUCHY sizeof_long instance
    * granularity CAUCHY sizeof_long instance <= INT_MAX ->
  exists r,
    get_aligned_data_size CAUCHY sizeof_long instance data_len = Some r /\
    smallest_multiple_ge (granularity CAUCHY sizeof_long instance)
      data_len r.
Proof.
  intros Hsl Hg Hd Hfit.
  set (g := granularity CAUCHY sizeof_long instance) in *.
  set (n := (data_len + g - 1) / g) in *.
  exists (n * g). split; [|apply round_up_smallest_multiple; lia].
  change (get_aligned_data_size CAUCHY sizeof_long instance data_len)
    with (am ← alignment_multiple_of CAUCHY sizeof_long instance;
          q ← Double.to_int
                (Double.ceill
                   (Double.div (Double.of_int data_len) (Double.of_int am)));
          int_mul q am).
  rewrite alignment_multiple_granularity by assumption. fold g.
  cbn [mbind option_bind].
  rewrite DoubleFacts.ceill_div_of_int by lia. fold n.
  assert (Hn : 0 <= n) by (apply Z.div_pos; lia).
  assert (Hn' : n <= INT_MAX) by (unfold INT_MAX in *; nia).
  unfold Double.to_int, int_rangeb.
  assert (H1 : (INT_MIN <=? n) = true)
    by (apply Z.leb_le; unfold INT_MIN; lia).
  assert (H2 : (n <=? INT_MAX) = true) by (apply Z.leb_le; exact Hn').
  rewrite H1, H2. cbn [andb option_bind].
  apply int_mul_small. unfold int_range, INT_MIN. nia.
Qed.

End AlignmentProperties.

(** ** Allocation failure *)

(** C5 fails on the code: in a memory whose allocator has 4096 bytes,
    [get_aligned_buffer16(-1)] asks [posix_memalign] for 2^64 - 1 bytes;
    the call fails with ENOMEM, a positive value, the test [< 0] does not
    see it, and [memset] runs on the pointer that was never assigned.  The
    call does not return NULL. *)
Theorem get_aligned_buffer16_failure_not_null :
  posix_memalign None 16 (to_size_t (-1)) Sample.empty
    = Ok (ENOMEM, None) Sample.empty /\
  get_aligned_buffer16 (-1) Sample.empty = Stuck UndefinedBehaviour /\
  get_aligned_buffer16 (-1) Sample.empty <> Ok NULL Sample.empty.
Proof.
  split; [reflexivity|]. split; [|discriminate].
  apply get_aligned_buffer16_no_memory. reflexivity.
Qed.


(** ** The properties on sample inputs *)

Module Examples.

Import Sample.

(** Hypotheses on closed terms are settled by evaluation. *)
Ltac evaluate :=
  lazymatch goal with
  | |- _ <> _ => discriminate
  | |- _ = _ => vm_compute; reflexivity
  | |- int_range _ => unfold int_range, INT_MIN, INT_MAX; lia
  | |- _ => unfold INT_MAX; vm_compute; repeat split; discriminate
  end.

(** The claim C1 as the specification words it fails: on the buffer
    [alloc_fragment_buffer(8)] returns in an empty memory,
    [free_fragment_buffer] called with the fragment pointer reads 32 bytes
    before the object and never returns 0. *)
Lemma free_with_fragment_pointer_fails :
  alloc_fragment_buffer MAGIC 8 empty = Ok frag with_fragment /\
  free_fragment_buffer MAGIC frag with_fragment = Stuck UndefinedBehaviour /\
  ~ (exists m2, free_fragment_buffer MAGIC frag with_fragment = Ok 0 m2).
Proof.
  split; [reflexivity|]. split; [reflexivity|].
  intros [m2 H]. vm_compute in H. discriminate.
Qed.

Lemma fresh_fragment_freed_by_data_pointer_witness :
  alloc_fragment_buffer MAGIC 8 empty = Ok frag with_fragment /\
  validate_fragment MAGIC frag with_fragment = Ok 0 with_fragment /\
  exists m2,
    free_fragment_buffer MAGIC (get_data_ptr_from_fragment frag) with_fragment
      = Ok 0 m2 /\
    heap m2 = heap empty /\ avail m2 = avail empty.
Proof.
  split; [reflexivity|].
  apply (fresh_fragment_freed_by_data_pointer MAGIC empty with_fragment 8 frag);
    evaluate.
Defined.

(** The claim C2 as the specification words it fails: on a buffer whose
    sentinel was overwritten with 0, [get_fragment_size] returns 32 and
    not -1. *)
Lemma get_fragment_size_ignores_sentinel :
  sentinel tampered frag = Some 0 /\ 0 <> MAGIC /\
  get_fragment_size frag tampered = Ok 32 tampered /\
  ~ rejects (get_fragment_size frag) tampered.
Proof.
  split; [reflexivity|]. split; [discriminate|]. split; [reflexivity|].
  intros (m' & H & _). vm_compute in H. discriminate.
Qed.

Lemma tampered_sentinel_rejected_witness :
  sentinel tampered frag = Some 0 /\
  rejects (set_fragment_idx MAGIC frag 7) tampered /\
  rejects (get_chksum MAGIC frag) tampered /\
  rejects (free_fragment_buffer MAGIC (get_data_ptr_from_fragment frag))
    tampered.
Proof.
  split; [reflexivity|].
  destruct (tampered_sentinel_rejected MAGIC tampered frag 0 7)
    as (H1 & _ & _ & _ & _ & _ & _ & H8 & H9);
    [evaluate | evaluate | evaluate |].
  auto.
Defined.

(** The alignment examples of the specification: 80 is already aligned to
    the granularity 10, and on the Cauchy backend with k = 4 and w = 8 a
    length below the granularity 4 * 8 * (8 * 128) rounds up to one
    granule. *)
Example aligned_length_is_kept :
  get_aligned_data_size CAUCHY sizeof_long (backend 8) 80 = Some 80.
Proof. vm_compute. reflexivity. Qed.

Example cauchy_rounds_up_to_one_granule :
  granularity CAUCHY sizeof_long (Backend CAUCHY 4 2 8) = 32768 /\
  get_aligned_data_size CAUCHY sizeof_long (Backend CAUCHY 4 2 8) 100
    = Some 32768.
Proof. split; vm_compute; reflexivity. Qed.

(** The claim C3 as the specification words it fails.  A backend with
    k = 10 and words of 4 bits has granularity 10 * (4 / 8) = 0: the
    quotient 77 / 0 is infinite and its conversion to [int] is undefined,
    and no multiple of 0 reaches 77.  With granularity 10 and
    [data_len = INT_MAX] the product that rounds up overflows [int].  With
    k = -10 the result, 70, is below [data_len]. *)
Lemma get_aligned_data_size_not_always_rounded_up :
  (granularity CAUCHY sizeof_long (backend 4) = 0 /\
   get_aligned_data_size CAUCHY sizeof_long (backend 4) 77 = None /\
   ~ (exists r,
         get_aligned_data_size CAUCHY sizeof_long (backend 4) 77 = Some r /\
         smallest_multiple_ge (granularity CAUCHY sizeof_long (backend 4))
           77 r)) /\
  (granularity CAUCHY sizeof_long (backend 8) = 10 /\
   get_aligned_data_size CAUCHY sizeof_long (backend 8) INT_MAX = None) /\
  (granularity CAUCHY sizeof_long (Backend 1 (-10) 4 8) = -10 /\
   get_aligned_data_size CAUCHY sizeof_long (Backend 1 (-10) 4 8) 77
     = Some 70).
Proof.
  split; [|split; split; vm_compute; reflexivity].
  split; [reflexivity|]. split; [reflexivity|].
  intros (r & H & _). vm_compute in H. discriminate.
Qed.

Lemma get_aligned_data_size_rounds_up_witness :
  granularity CAUCHY sizeof_long (backend 8) = 10 /\
  exists r,
    get_aligned_data_size CAUCHY sizeof_long (backend 8) 77 = Some r /\
    smallest_multiple_ge 10 77 r.
Proof.
  split; [reflexivity|].
  apply (get_aligned_data_size_rounds_up CAUCHY sizeof_long (backend 8) 77);
    evaluate.
Defined.

Lemma header_fields_round_trip_witness :
  has_header with_fragment frag = true /\
  sentinel with_fragment frag = Some MAGIC /\
  exists m', set_chksum MAGIC frag (-5) with_fragment = Ok 0 m' /\
             get_chksum MAGIC frag m' = Ok (-5) m'.
Proof.
  split; [reflexivity|]. split; [reflexivity|].
  destruct (header_fields_round_trip MAGIC with_fragment frag (-5))
    as (_ & _ & _ & H); [evaluate | evaluate | evaluate | evaluate |].
  exact H.
Defined.

Lemma get_fragment_size_spec_witness :
  peek_u32 tampered (ptr_add frag off_size) = Some 0 /\
  get_fragment_size frag tampered
    = Ok (0 + sizeof_fragment_header_t) tampered.
Proof.
  split; [reflexivity|].
  apply (proj2 (proj2 get_fragment_size_spec) tampered frag 0); evaluate.
Defined.

Lemma data_fragment_pointer_symmetry_witness :
  sentinel with_fragment frag = Some MAGIC /\
  get_fragment_ptr_from_data MAGIC (Ptr 1 32) with_fragment
    = Ok frag with_fragment.
Proof.
  split; [reflexivity|].
  destruct (data_fragment_pointer_symmetry MAGIC with_fragment frag frag)
    as ((f & H & -> & _) & _); [evaluate|].
  exact H.
Defined.

Lemma get_data_ptr_array_from_fragments_spec_witness :
  (exists m',
     get_data_ptr_array_from_fragments (PPtr 1 0) (PPtr 0 0) 3 stripe
       = Ok 2 m' /\
     arrays m' !! 1%nat = Some [Ptr 1 32; NULL; Ptr 2 32]) /\
  (exists m',
     get_data_ptr_array_from_fragments (PPtr 0 0) (PPtr 0 1) 2 stripe
       = Ok 1 m' /\
     arrays m' !! 0%nat = Some [NULL; Ptr 2 32; Ptr 2 0]).
Proof.
  split.
  - destruct (get_data_ptr_array_from_fragments_spec stripe 1 0 0 0 3
                [Ptr 1 0; NULL; Ptr 2 0] [NULL; NULL; NULL])
      as (m' & out & H & -> & _ & -> & _);
      [evaluate | evaluate | simpl; lia | simpl; lia | left; lia |].
    eexists. split; [exact H|]. reflexivity.
  - destruct (get_data_ptr_array_from_fragments_spec stripe 0 0 0 1 2
                [Ptr 1 0; NULL; Ptr 2 0] [Ptr 1 0; NULL; Ptr 2 0])
      as (m' & out & H & -> & _ & -> & _);
      [evaluate | evaluate | simpl; lia | simpl; lia | right; left; lia |].
    eexists. split; [exact H|]. reflexivity.
Defined.

(** The output array may be the fragment array itself. *)
Example data_pointers_resolved_in_place :
  exists m',
    get_data_ptr_array_from_fragments (PPtr 0 0) (PPtr 0 0) 3 stripe
      = Ok 2 m' /\
    arrays m' !! 0%nat = Some [Ptr 1 32; NULL; Ptr 2 32].
Proof. eexists. split; vm_compute; reflexivity. Qed.

(** The claim C8 as the specification words it fails when the output
    overlaps the fragments still to be read.  Array 0 of [stripe] holds
    [fragA; NULL; fragC].  With [fragments] at its entry 0, [data_array] at
    its entry 1 and [num_fragments = 2], the fragment pointers are
    [fragA; NULL]; the second iteration reads the data pointer that the
    first one wrote, so the call writes [fragA + 32; fragA + 64] and
    returns 2, where the claim has [fragA + 32; NULL] and 1. *)
Lemma overlapping_output_is_read_back :
  arrays stripe !! 0%nat = Some [Ptr 1 0; NULL; Ptr 2 0] /\
  count_non_null [Ptr 1 0; NULL] = 1 /\
  data_ptr_of <$> [Ptr 1 0; NULL] = [Ptr 1 32; NULL] /\
  (exists m',
     get_data_ptr_array_from_fragments (PPtr 0 1) (PPtr 0 0) 2 stripe
       = Ok 2 m' /\
     arrays m' !! 0%nat = Some [Ptr 1 0; Ptr 1 32; Ptr 1 64]) /\
  ~ writes_spare_pending_reads (PPtr 0 1) (PPtr 0 0) 2 /\
  ~ (exists m',
        get_data_ptr_array_from_fragments (PPtr 0 1) (PPtr 0 0) 2 stripe
          = Ok (count_non_null [Ptr 1 0; NULL]) m') /\
  ~ (exists r m' out,
        get_data_ptr_array_from_fragments (PPtr 0 1) (PPtr 0 0) 2 stripe
          = Ok r m' /\
        arrays m' !! 0%nat = Some out /\
        out !! 2%nat = (data_ptr_of <$> [Ptr 1 0; NULL]) !! 1%nat).
Proof.
  split; [reflexivity|]. split; [reflexivity|]. split; [reflexivity|].
  split; [eexists; split; vm_compute; reflexivity|]. split; [|split].
  - unfold writes_spare_pending_reads. intros [H|[H|H]]; [congruence|lia|lia].
  - intros (m' & H). vm_compute in H. discriminate.
  - intros (r & m' & out & H & Ha & Ho).
    vm_compute in H. injection H as _ <-.
    vm_compute in Ha. injection Ha as <-.
    vm_compute in Ho. discriminate.
Qed.

Lemma free_fragment_buffer_takes_data_pointer_witness :
  alloc_fragment_buffer MAGIC 8 empty = Ok frag with_fragment /\
  live_fragment MAGIC with_fragment frag /\
  (exists m2,
     free_fragment_buffer MAGIC (Ptr 1 32) with_fragment = Ok 0 m2 /\
     heap m2 = delete 1%nat (heap with_fragment)) /\
  free_fragment_buffer MAGIC frag with_fragment = Stuck UndefinedBehaviour /\
  sentinel tampered frag = Some 0 /\
  free_fragment_buffer MAGIC (Ptr 1 32) tampered
    = Ok (-1) (logged "Invalid fragment header (free fragment)!" tampered).
Proof.
  destruct (free_fragment_buffer_takes_data_pointer MAGIC)
    as (_ & Hbad & _ & Hnew & Hlive).
  assert (Hl : live_fragment MAGIC with_fragment frag)
    by (apply (Hnew empty 8 frag with_fragment); evaluate).
  destruct (Hlive with_fragment frag Hl)
    as ((bytes & m2 & _ & Hfree & Hheap & _) & _ & _ & Hfrag).
  split; [reflexivity|]. split; [exact Hl|].
  split; [exists m2; split; [exact Hfree | exact Hheap]|].
  split; [exact Hfrag|]. split; [reflexivity|].
  apply (Hbad tampered (Ptr 1 32) 0); evaluate.
Defined.

End Examples.

(** * Further properties *)

(** ** Allocation *)

Lemma fragment_alloc_size_small (size : Z) :
  -32 <= size <= INT_MAX - 32 -> fragment_alloc_size size = size + 32.
Proof.
  unfold INT_MAX, fragment_alloc_size, to_size_t, to_int,
    sizeof_fragment_header_t. intros H.
  destruct (Z_le_gt_dec 0 size) as [Hs|Hs].
  - rewrite (Z.mod_small size) by lia.
    rewrite (Z.mod_small (size + 32)) by lia.
    rewrite (Z.mod_small (size + 32 + 2 ^ 31)) by lia.
    rewrite Z.mod_small by lia. lia.
  - replace (size mod 2 ^ 64) with (size + 2 ^ 64)
      by (apply (Z.mod_unique _ _ (-1)); lia).
    replace ((size + 2 ^ 64 + 32) mod 2 ^ 64) with (size + 32)
      by (apply (Z.mod_unique _ _ 1); lia).
    rewrite (Z.mod_small (size + 32 + 2 ^ 31)) by lia.
    rewrite Z.mod_small by lia. lia.
Qed.

Lemma to_size_t_small (z : Z) : 0 <= z <= INT_MAX -> to_size_t z = z.
Proof. unfold INT_MAX, to_size_t. intros H. apply Z.mod_small. lia. Qed.

(** X1: when the allocator can serve [size] bytes, [get_aligned_buffer16]
    returns a non-null pointer to the start of a new object of [size] zero
    bytes, in a block no object lived in; no other object changes and the
    allocator has [size] bytes less. *)
Theorem get_aligned_buffer16_zeroed (m : mem) (size : Z) :
  0 <= size <= INT_MAX ->
  size <= avail m ->
  exists b m1,
    get_aligned_buffer16 size m = Ok (Ptr b 0) m1 /\
    Ptr b 0 <> NULL /\
    heap m !! b = None /\
    heap m1 !! b = Some (replicate (Z.to_nat size) (Byte x00)) /\
    same_heap_except b m m1 /\
    avail m1 = avail m - size.
Proof.
  intros Hs Ha. exists (fresh_block m). eexists.
  rewrite get_aligned_buffer16_ok by (rewrite to_size_t_small; assumption).
  rewrite to_size_t_small by assumption.
  destruct (fresh_block_spec m) as [Hb0 Hfresh].
  split; [reflexivity|]. split; [unfold NULL; congruence|].
  split; [exact Hfresh|]. unfold set_avail, set_heap. cbn [heap avail].
  split; [apply lookup_insert_eq|]. split; [|reflexivity].
  intros b' Hb'. cbn [heap]. apply lookup_insert_ne. congruence.
Qed.

Section AllocationFailure.

Variable MAGIC : Z.

Lemma get_aligned_buffer16_not_null (m m1 : mem) (size : Z) :
  get_aligned_buffer16 size m <> Ok NULL m1.
Proof.
  destruct (Z_le_gt_dec (to_size_t size) (avail m)) as [Hle|Hgt].
  - rewrite get_aligned_buffer16_ok by exact Hle.
    destruct (fresh_block_spec m) as [Hb0 _].
    unfold NULL. intros [= H _]. contradiction.
  - rewrite get_aligned_buffer16_no_memory by lia. discriminate.
Qed.

(** X2: the aligned allocators never return the null pointer.  When the
    allocator cannot serve the request, [get_aligned_buffer16] and
    [alloc_fragment_buffer] are undefined: the positive error number of
    [posix_memalign] passes the test [< 0] and [memset] runs on a pointer
    that was never assigned. *)
Theorem aligned_allocators_never_return_null (m : mem) (size : Z) :
  (forall m1, get_aligned_buffer16 size m <> Ok NULL m1) /\
  (avail m < to_size_t size ->
   get_aligned_buffer16 size m = Stuck UndefinedBehaviour) /\
  (forall m1, alloc_fragment_buffer MAGIC size m <> Ok NULL m1) /\
  (avail m < fragment_alloc_size size ->
   alloc_fragment_buffer MAGIC size m = Stuck UndefinedBehaviour).
Proof.
  split; [intros m1; apply get_aligned_buffer16_not_null|].
  split; [apply get_aligned_buffer16_no_memory|]. split.
  - intros m1 H. apply alloc_fragment_buffer_inv in H.
    destruct H as (_ & _ & Hp & _).
    destruct (fresh_block_spec m) as [Hb0 _].
    unfold NULL in Hp. injection Hp as Hp. congruence.
  - intros Hlt. unfold alloc_fragment_buffer, bind.
    unfold fragment_alloc_size in Hlt.
    rewrite get_aligned_buffer16_no_memory by exact Hlt. reflexivity.
Qed.

End AllocationFailure.

(** ** Plain buffers *)

(** The two outcomes of [alloc_and_set_buffer]. *)
Lemma alloc_and_set_buffer_cases (m : mem) (size value : Z) :
  0 <= size <= INT_MAX ->
  (size <= avail m ->
   exists b m1,
     alloc_and_set_buffer size value m = Ok (Ptr b 0) m1 /\
     Ptr b 0 <> NULL /\
     heap m !! b = None /\
     heap m1 !! b
       = Some (replicate (Z.to_nat size) (Byte (byte_of_Z value))) /\
     same_heap_except b m m1 /\
     avail m1 = avail m - size) /\
  (avail m < size -> alloc_and_set_buffer size value m = Ok NULL m).
Proof.
  intros Hs. unfold alloc_and_set_buffer, bind, malloc.
  rewrite to_size_t_small by exact Hs. split.
  - intros Ha. apply Z.leb_le in Ha. rewrite Ha.
    destruct (fresh_block_spec m) as [Hb0 Hfresh].
    assert (Hnn : Ptr (fresh_block m) 0 <> NULL) by (unfold NULL; congruence).
    rewrite (ptr_eqb_NULL_r _ Hnn). cbn [negb].
    unfold memset, set_avail, set_heap. cbn [heap arrays avail errlog].
    rewrite lookup_insert_eq, length_replicate.
    assert (Hin : in_bounds 0 size (Z.to_nat size) && (0 <=? size) = true).
    { apply andb_true_iff. split; [apply in_bounds_spec|apply Z.leb_le]; lia. }
    rewrite Hin. unfold ret. rewrite insert_insert_eq.
    change (Z.to_nat 0) with 0%nat. rewrite inserts_replicate.
    exists (fresh_block m). eexists. split; [reflexivity|].
    split; [exact Hnn|]. split; [exact Hfresh|]. cbn [heap avail].
    split; [apply lookup_insert_eq|]. split; [|reflexivity].
    intros b' Hb'. cbn [heap]. apply lookup_insert_ne. congruence.
  - intros Ha. apply Z.leb_gt in Ha. rewrite Ha. reflexivity.
Qed.

(** X3: [alloc_and_set_buffer] returns, when the allocator can serve
    [size] bytes, a non-null pointer to a new object whose [size] bytes all
    hold [(unsigned char) value], leaving every other object as it was;
    and when it cannot, the null pointer, with the memory unchanged. *)
Theorem alloc_and_set_buffer_spec (m : mem) (size value : Z) :
  0 <= size <= INT_MAX ->
  (size <= avail m ->
   exists b m1,
     alloc_and_set_buffer size value m = Ok (Ptr b 0) m1 /\
     Ptr b 0 <> NULL /\
     heap m !! b = None /\
     heap m1 !! b
       = Some (replicate (Z.to_nat size) (Byte (byte_of_Z value))) /\
     same_heap_except b m m1 /\
     avail m1 = avail m - size) /\
  (avail m < size -> alloc_and_set_buffer size value m = Ok NULL m).
Proof. apply alloc_and_set_buffer_cases. Qed.

(** X4: [check_and_free_buffer] applied to the result of
    [alloc_zeroed_buffer] always returns the null pointer and leaves the
    heap and the allocator as they were before the allocation, whether the
    allocation succeeded or not. *)
Theorem alloc_zeroed_then_check_and_free (m : mem) (size : Z) :
  0 <= size <= INT_MAX ->
  exists m2,
    (do buf <- alloc_zeroed_buffer size; check_and_free_buffer buf) m
      = Ok NULL m2 /\
    heap m2 = heap m /\ avail m2 = avail m.
Proof.
  intros Hs. unfold alloc_zeroed_buffer.
  destruct (alloc_and_set_buffer_cases m size 0 Hs) as [Hok Hfail].
  destruct (Z_le_gt_dec size (avail m)) as [Ha|Ha].
  - destruct (Hok Ha) as (b & m1 & Heq & Hnn & Hfresh & Hb & Hframe & Hav).
    unfold bind. rewrite Heq. unfold check_and_free_buffer, bind, free.
    rewrite (ptr_eqb_NULL_r _ Hnn). cbn [negb]. rewrite Hb.
    cbn [Z.eqb ret]. eexists. split; [reflexivity|].
    unfold set_avail, set_heap. cbn [heap avail].
    rewrite length_replicate. split; [|lia].
    apply map_eq. intros b'. destruct (decide (b' = b)) as [->|Hne].
    + rewrite lookup_delete_eq. symmetry. exact Hfresh.
    + rewrite lookup_delete_ne by congruence. apply Hframe. exact Hne.
  - unfold bind. rewrite (Hfail ltac:(lia)). exists m. split; [|auto].
    reflexivity.
Qed.

(** X5: [check_and_free_buffer] returns the null pointer whenever it
    returns; on the null pointer it changes nothing, and on the start of a
    live object it releases that object and no other. *)
Theorem check_and_free_buffer_spec (m : mem) (b : nat) (bytes : list memval) :
  check_and_free_buffer NULL m = Ok NULL m /\
  (forall buf p m', check_and_free_buffer buf m = Ok p m' -> p = NULL) /\
  (Ptr b 0 <> NULL ->
   heap m !! b = Some bytes ->
   exists m',
     check_and_free_buffer (Ptr b 0) m = Ok NULL m' /\
     heap m' = delete b (heap m) /\
     avail m' = avail m + Z.of_nat (length bytes)).
Proof.
  split; [reflexivity|]. split.
  - intros buf p m'. unfold check_and_free_buffer, bind.
    destruct (ptr_eqb buf NULL); cbn [negb].
    + intros [= <- _]. reflexivity.
    + destruct (free buf m); [|discriminate]. intros [= <- _]. reflexivity.
  - intros Hnn Hb. unfold check_and_free_buffer, bind, free.
    rewrite (ptr_eqb_NULL_r _ Hnn). cbn [negb]. rewrite Hb.
    cbn [Z.eqb ret].
    eexists. split; [reflexivity|]. split; reflexivity.
Qed.

(** ** Fragment buffers *)

Lemma read_u32_zeros (n i : nat) :
  (i + 4 <= n)%nat -> read_u32 (replicate n (Byte x00)) i = Some 0.
Proof.
  intros H. unfold read_u32.
  rewrite !lookup_replicate_2 by lia. reflexivity.
Qed.

Lemma poke_u32_heap (m m' : mem) (b : nat) (ofs v : Z) :
  poke_u32 m (Ptr b ofs) v = Some m' ->
  exists bytes bytes',
    heap m !! b = Some bytes /\
    heap m' = <[b := bytes']> (heap m) /\
    length bytes' = length bytes /\
    avail m' = avail m /\ arrays m' = arrays m /\ errlog m' = errlog m.
Proof.
  unfold poke_u32. intros H.
  destruct (heap m !! b) as [bytes|] eqn:Hb; [|discriminate].
  destruct (in_bounds ofs 4 (length bytes)); [|discriminate].
  apply (inj Some) in H. subst m'.
  exists bytes. eexists. split; [reflexivity|].
  split; [reflexivity|]. split; [apply length_inserts|]. auto.
Qed.

Section FragmentProperties.

Variable MAGIC : Z.
Hypothesis MAGIC_range : 0 <= MAGIC < 2 ^ 32.

(** What the getters return on a buffer whose sentinel is intact. *)
Lemma header_view_valid (m : mem) (buf : ptr) (i s o c : Z) :
  buf <> NULL ->
  sentinel m buf = Some MAGIC ->
  peek_u32 m (ptr_add buf off_idx) = Some i ->
  peek_u32 m (ptr_add buf off_size) = Some s ->
  peek_u32 m (ptr_add buf off_orig_data_size) = Some o ->
  peek_u32 m (ptr_add buf off_chksum) = Some c ->
  header_view MAGIC buf m = Some (to_int i, to_int s, to_int o, to_int c).
Proof.
  intros Hnn Hs Hi Hsz Ho Hc. unfold header_view.
  assert (get_fragment_idx MAGIC buf m = Ok (to_int i) m) as ->
    by exact (get_header_field_ok MAGIC m buf off_idx i _ Hnn Hs Hi).
  assert (get_fragment_payload_size MAGIC buf m = Ok (to_int s) m) as ->
    by exact (get_header_field_ok MAGIC m buf off_size s _ Hnn Hs Hsz).
  assert (get_orig_data_size MAGIC buf m = Ok (to_int o) m) as ->
    by exact (get_header_field_ok MAGIC m buf off_orig_data_size o _
                Hnn Hs Ho).
  assert (get_chksum MAGIC buf m = Ok (to_int c) m) as ->
    by exact (get_header_field_ok MAGIC m buf off_chksum c _ Hnn Hs Hc).
  reflexivity.
Qed.

Lemma alloc_fragment_buffer_ok (m : mem) (size : Z) :
  4 <= fragment_alloc_size size <= avail m ->
  alloc_fragment_buffer MAGIC size m =
    Ok (Ptr (fresh_block m) 0)
       (set_avail (avail m - fragment_alloc_size size)
          (set_heap
             (<[fresh_block m :=
                  list_inserts 0 (encode_u32 (to_uint32 MAGIC))
                    (replicate (Z.to_nat (fragment_alloc_size size))
                       (Byte x00))]> (heap m)) m)).
Proof.
  intros Hn.
  destruct (alloc_fragment_buffer MAGIC size m) as [p m1|f] eqn:H.
  - apply alloc_fragment_buffer_inv in H.
    destruct H as (_ & _ & -> & ->). reflexivity.
  - exfalso. revert H. unfold alloc_fragment_buffer, bind.
    unfold fragment_alloc_size in Hn.
    rewrite get_aligned_buffer16_ok by lia.
    destruct (fresh_block_spec m) as [Hb0 _].
    assert (Hnn : Ptr (fresh_block m) 0 <> NULL) by (unfold NULL; congruence).
    rewrite (ptr_eqb_NULL_r _ Hnn). cbn [negb].
    unfold store_u32, poke_u32, ptr_add, off_magic, set_avail, set_heap.
    cbn [heap arrays avail errlog].
    rewrite lookup_insert_eq, length_replicate.
    assert (Hin : in_bounds (0 + 0) 4
                    (Z.to_nat (to_size_t (to_int (to_size_t
                       (to_size_t size + sizeof_fragment_header_t)))))
                  = true) by (apply in_bounds_spec; lia).
    rewrite Hin. discriminate.
Qed.

(** X6: for a payload size that, with the header, fits in [int] and in the
    allocator, [alloc_fragment_buffer] succeeds: it returns a non-null
    pointer to the start of a new object of [size + 32] bytes whose
    sentinel is the magic constant; no other object changes and the
    allocator has [size + 32] bytes less. *)
Theorem alloc_fragment_buffer_succeeds (m : mem) (size : Z) :
  0 <= size <= INT_MAX - 32 ->
  size + 32 <= avail m ->
  exists b m1 bytes,
    alloc_fragment_buffer MAGIC size m = Ok (Ptr b 0) m1 /\
    Ptr b 0 <> NULL /\
    heap m !! b = None /\
    heap m1 !! b = Some bytes /\
    Z.of_nat (length bytes) = size + 32 /\
    sentinel m1 (Ptr b 0) = Some MAGIC /\
    same_heap_except b m m1 /\
    avail m1 = avail m - (size + 32).
Proof.
  intros Hs Ha.
  assert (Hn : fragment_alloc_size size = size + 32)
    by (apply fragment_alloc_size_small; lia).
  assert (Hok := alloc_fragment_buffer_ok m size ltac:(lia)).
  destruct (fresh_fragment MAGIC _ _ _ _ MAGIC_range Hok)
    as (b & bytes & Hp & Hb0 & Hfresh & Hheap & Hav & Hlen & Hsen).
  injection Hp as Hp. rewrite <- Hp in *.
  eexists _, _, bytes. split; [exact Hok|].
  split; [unfold NULL; congruence|]. split; [exact Hfresh|].
  split; [rewrite Hheap; apply lookup_insert_eq|].
  split; [lia|]. split; [exact Hsen|]. split; [|lia].
  intros b' Hb'. rewrite Hheap. apply lookup_insert_ne. congruence.
Qed.

(** X7: in the buffer [alloc_fragment_buffer] returns, every byte after
    the sentinel is zero: the getters of idx, payload size, orig-data size
    and checksum all return 0, [get_fragment_size] returns the header size
    32, and the payload is [size] zero bytes. *)
Theorem fresh_fragment_is_zeroed (m m1 : mem) (size : Z) (p : ptr) :
  0 <= size <= INT_MAX - 32 ->
  alloc_fragment_buffer MAGIC size m = Ok p m1 ->
  header_view MAGIC p m1 = Some (0, 0, 0, 0) /\
  get_fragment_size p m1 = Ok 32 m1 /\
  exists bytes,
    heap m1 !! block_of p = Some bytes /\
    drop 4 bytes = replicate (Z.to_nat (size + 28)) (Byte x00).
Proof.
  intros Hs H. apply alloc_fragment_buffer_inv in H.
  destruct H as (Hle & Hn & -> & ->).
  rewrite fragment_alloc_size_small in * by lia.
  destruct (fresh_block_spec m) as [Hb0 _].
  set (b := fresh_block m) in *.
  set (bytes := list_inserts 0 (encode_u32 (to_uint32 MAGIC))
                  (replicate (Z.to_nat (size + 32)) (Byte x00))).
  set (m1 := set_avail _ _).
  assert (Hheap : heap m1 !! b = Some bytes) by apply lookup_insert_eq.
  assert (Hlen : length bytes = Z.to_nat (size + 32))
    by (unfold bytes; rewrite length_inserts, length_replicate; reflexivity).
  assert (Hnn : Ptr b 0 <> NULL) by (unfold NULL; congruence).
  assert (Hsen : sentinel m1 (Ptr b 0) = Some MAGIC).
  { unfold sentinel, ptr_add, off_magic, peek_u32. rewrite Hheap, Hlen.
    assert (Hin : in_bounds (0 + 0) 4 (Z.to_nat (size + 32)) = true)
      by (apply in_bounds_spec; lia).
    rewrite Hin. unfold bytes. change (Z.to_nat (0 + 0)) with 0%nat.
    rewrite read_u32_inserts_same.
    - f_equal. apply to_uint32_small. exact MAGIC_range.
    - rewrite length_replicate. lia.
    - apply to_uint32_range. }
  assert (Hfield : forall off, 4 <= off <= 28 ->
            peek_u32 m1 (ptr_add (Ptr b 0) off) = Some 0).
  { intros off Hoff. unfold ptr_add, peek_u32. rewrite Hheap, Hlen.
    assert (Hin : in_bounds (0 + off) 4 (Z.to_nat (size + 32)) = true)
      by (apply in_bounds_spec; lia).
    rewrite Hin. unfold bytes.
    rewrite read_u32_inserts_other by (cbn [length encode_u32]; lia).
    apply read_u32_zeros. lia. }
  split; [|split].
  - apply (header_view_valid m1 (Ptr b 0) 0 0 0 0 Hnn Hsen);
      apply Hfield;
      unfold off_idx, off_size, off_orig_data_size, off_chksum; lia.
  - unfold get_fragment_size, bind, load_u32.
    rewrite (ptr_eqb_NULL_l _ Hnn).
    rewrite Hfield by (unfold off_size; lia). reflexivity.
  - exists bytes. split; [exact Hheap|]. unfold bytes.
    apply list_eq. intros i. rewrite lookup_drop.
    rewrite list_lookup_inserts_ge by (cbn [length encode_u32]; lia).
    destruct (decide (i < Z.to_nat (size + 28))%nat) as [Hi|Hi].
    + rewrite !lookup_replicate_2 by lia. reflexivity.
    + rewrite !lookup_ge_None_2 by (rewrite length_replicate; lia).
      reflexivity.
Qed.

(** X8: for the sizes -32 .. -29 the sum with the header size is 0 .. 3:
    [alloc_fragment_buffer] allocates an object of fewer than four bytes
    and writes the four bytes of the sentinel past its end. *)
Theorem alloc_fragment_buffer_header_overflow (m : mem) (size : Z) :
  -32 <= size <= -29 ->
  size + 32 <= avail m ->
  alloc_fragment_buffer MAGIC size m = Stuck UndefinedBehaviour.
Proof.
  intros Hs Ha.
  assert (Hn : fragment_alloc_size size = size + 32)
    by (apply fragment_alloc_size_small; unfold INT_MAX; lia).
  unfold fragment_alloc_size in Hn.
  unfold alloc_fragment_buffer, bind.
  rewrite get_aligned_buffer16_ok by lia. rewrite Hn.
  destruct (fresh_block_spec m) as [Hb0 _].
  assert (Hnn : Ptr (fresh_block m) 0 <> NULL) by (unfold NULL; congruence).
  rewrite (ptr_eqb_NULL_r _ Hnn). cbn [negb].
  unfold store_u32, poke_u32, ptr_add, off_magic, set_avail, set_heap.
  cbn [heap arrays avail errlog].
  rewrite lookup_insert_eq, length_replicate.
  assert (Hin : in_bounds (0 + 0) 4 (Z.to_nat (size + 32)) = false).
  { apply not_true_iff_false. rewrite in_bounds_spec. lia. }
  rewrite Hin. reflexivity.
Qed.

(** *** Header fields *)

Lemma get_header_field_valid (m : mem) (buf : ptr) (off : Z) (msg : string) :
  buf <> NULL ->
  sentinel m buf = Some MAGIC ->
  get_header_field MAGIC off msg buf m =
    match peek_u32 m (ptr_add buf off) with
    | Some x => Ok (to_int x) m
    | None => Stuck UndefinedBehaviour
    end.
Proof.
  intros Hnn Hs. unfold get_header_field, bind, assert.
  rewrite (ptr_eqb_NULL_l _ Hnn). cbn [negb ret].
  rewrite (magic_mismatch_eval _ _ _ _ Hs), Z.eqb_refl. cbn [negb].
  unfold load_u32. destruct (peek_u32 m (ptr_add buf off)); reflexivity.
Qed.

Lemma header_view_inv (m : mem) (buf : ptr) (i s o c : Z) :
  buf <> NULL ->
  sentinel m buf = Some MAGIC ->
  header_view MAGIC buf m = Some (i, s, o, c) ->
  exists xi xs xo xc,
    peek_u32 m (ptr_add buf off_idx) = Some xi /\
    peek_u32 m (ptr_add buf off_size) = Some xs /\
    peek_u32 m (ptr_add buf off_orig_data_size) = Some xo /\
    peek_u32 m (ptr_add buf off_chksum) = Some xc /\
    i = to_int xi /\ s = to_int xs /\ o = to_int xo /\ c = to_int xc.
Proof.
  intros Hnn Hs. unfold header_view.
  change (get_fragment_idx MAGIC buf m)
    with (get_header_field MAGIC off_idx
            "Invalid fragment header (get idx)!" buf m).
  change (get_fragment_payload_size MAGIC buf m)
    with (get_header_field MAGIC off_size
            "Invalid fragment header (get size)!" buf m).
  change (get_orig_data_size MAGIC buf m)
    with (get_header_field MAGIC off_orig_data_size
            "Invalid fragment header (get orig data check)!" buf m).
  change (get_chksum MAGIC buf m)
    with (get_header_field MAGIC off_chksum
            "Invalid fragment header (get chksum)!" buf m).
  rewrite !get_header_field_valid by assumption.
  destruct (peek_u32 m (ptr_add buf off_idx)) as [xi|]; [|discriminate].
  destruct (peek_u32 m (ptr_add buf off_size)) as [xs|]; [|discriminate].
  destruct (peek_u32 m (ptr_add buf off_orig_data_size)) as [xo|];
    [|discriminate].
  destruct (peek_u32 m (ptr_add buf off_chksum)) as [xc|]; [|discriminate].
  intros [= <- <- <- <-]. exists xi, xs, xo, xc. repeat split; reflexivity.
Qed.

(** One successful setter call: the field holds the new word, the words
    of the header that do not overlap it are as before, and the object
    keeps its place and length. *)
Lemma set_header_field_step (m : mem) (buf : ptr) (off v : Z)
    (msg : string) :
  buf <> NULL ->
  has_header m buf = true ->
  sentinel m buf = Some MAGIC ->
  4 <= off -> off + 4 <= sizeof_fragment_header_t ->
  exists m' bytes bytes',
    set_header_field MAGIC off msg buf v m = Ok 0 m' /\
    has_header m' buf = true /\
    sentinel m' buf = Some MAGIC /\
    peek_u32 m' (ptr_add buf off) = Some (to_uint32 v) /\
    (forall off', off' + 4 <= off \/ off + 4 <= off' ->
       peek_u32 m' (ptr_add buf off') = peek_u32 m (ptr_add buf off')) /\
    heap m !! block_of buf = Some bytes /\
    heap m' = <[block_of buf := bytes']> (heap m) /\
    length bytes' = length bytes /\
    avail m' = avail m /\ errlog m' = errlog m.
Proof.
  intros Hnn Hh Hs H1 H2.
  destruct (set_header_field_ok MAGIC m buf off v msg Hnn Hh Hs H1 H2)
    as (m' & Hset & Hpoke).
  destruct buf as [b ofs]. unfold ptr_add in Hpoke.
  destruct (poke_u32_heap _ _ _ _ _ Hpoke)
    as (bytes & bytes' & Hb & Hheap & Hlen & Hav & _ & Hlog).
  exists m', bytes, bytes'. split; [exact Hset|].
  assert (Hother : forall off', off' + 4 <= off \/ off + 4 <= off' ->
            peek_u32 m' (ptr_add (Ptr b ofs) off')
            = peek_u32 m (ptr_add (Ptr b ofs) off')).
  { intros off' Hoff. unfold ptr_add.
    apply (peek_poke_other _ _ _ _ _ _ _ Hpoke). lia. }
  split.
  { unfold has_header in *. cbn [block_of] in *.
    rewrite Hheap, lookup_insert_eq, Hlen. rewrite Hb in Hh. exact Hh. }
  split.
  { unfold sentinel in *. rewrite Hother; [exact Hs|].
    unfold off_magic. lia. }
  split.
  { apply (peek_poke_same _ _ _ _ Hpoke). apply to_uint32_range. }
  split; [exact Hother|]. cbn [block_of]. auto.
Qed.

(** X9: on a buffer whose sentinel is intact, each setter changes the
    field it names and nothing else a getter can see: the other three
    getters return what they returned before, and the sentinel stays the
    magic constant. *)
Theorem setters_update_one_field
    (m : mem) (buf : ptr) (i s o c v : Z) :
  buf <> NULL ->
  has_header m buf = true ->
  sentinel m buf = Some MAGIC ->
  header_view MAGIC buf m = Some (i, s, o, c) ->
  int_range v ->
  (exists m', set_fragment_idx MAGIC buf v m = Ok 0 m' /\
              sentinel m' buf = Some MAGIC /\
              header_view MAGIC buf m' = Some (v, s, o, c)) /\
  (exists m', set_fragment_payload_size MAGIC buf v m = Ok 0 m' /\
              sentinel m' buf = Some MAGIC /\
              header_view MAGIC buf m' = Some (i, v, o, c)) /\
  (exists m', set_orig_data_size MAGIC buf v m = Ok 0 m' /\
              sentinel m' buf = Some MAGIC /\
              header_view MAGIC buf m' = Some (i, s, v, c)) /\
  (exists m', set_chksum MAGIC buf v m = Ok 0 m' /\
              sentinel m' buf = Some MAGIC /\
              header_view MAGIC buf m' = Some (i, s, o, v)).
Proof.
  intros Hnn Hh Hs Hview Hv.
  destruct (header_view_inv m buf i s o c Hnn Hs Hview)
    as (xi & xs & xo & xc & Hi & Hsz & Ho & Hc & -> & -> & -> & ->).
  pose proof (to_int_to_uint32 v Hv) as Hvv.
  unfold sizeof_fragment_header_t, off_idx, off_size, off_orig_data_size,
    off_chksum in *.
  split; [|split; [|split]].
  - destruct (set_header_field_step m buf 4 v
                (String.append "Invalid fragment header (idx check)!" LF)
                Hnn Hh Hs ltac:(lia)
                ltac:(unfold sizeof_fragment_header_t; lia))
      as (m' & _ & _ & Hset & _ & Hs' & Hnew & Hother & _).
    exists m'. split; [exact Hset|]. split; [exact Hs'|].
    rewrite <- Hvv at 1.
    apply (header_view_valid m' buf _ _ _ _ Hnn Hs');
      unfold off_idx, off_size, off_orig_data_size, off_chksum;
      first [exact Hnew | rewrite Hother by lia; assumption].
  - destruct (set_header_field_step m buf 8 v
                "Invalid fragment header (size check)!"
                Hnn Hh Hs ltac:(lia)
                ltac:(unfold sizeof_fragment_header_t; lia))
      as (m' & _ & _ & Hset & _ & Hs' & Hnew & Hother & _).
    exists m'. split; [exact Hset|]. split; [exact Hs'|].
    rewrite <- Hvv at 1.
    apply (header_view_valid m' buf _ _ _ _ Hnn Hs');
      unfold off_idx, off_size, off_orig_data_size, off_chksum;
      first [exact Hnew | rewrite Hother by lia; assumption].
  - destruct (set_header_field_step m buf 12 v
                "Invalid fragment header (set orig data check)!"
                Hnn Hh Hs ltac:(lia)
                ltac:(unfold sizeof_fragment_header_t; lia))
      as (m' & _ & _ & Hset & _ & Hs' & Hnew & Hother & _).
    exists m'. split; [exact Hset|]. split; [exact Hs'|].
    rewrite <- Hvv at 1.
    apply (header_view_valid m' buf _ _ _ _ Hnn Hs');
      unfold off_idx, off_size, off_orig_data_size, off_chksum;
      first [exact Hnew | rewrite Hother by lia; assumption].
  - destruct (set_header_field_step m buf 16 v
                (String.append "Invalid fragment header (set chksum)!" LF)
                Hnn Hh Hs ltac:(lia)
                ltac:(unfold sizeof_fragment_header_t; lia))
      as (m' & _ & _ & Hset & _ & Hs' & Hnew & Hother & _).
    exists m'. split; [exact Hset|]. split; [exact Hs'|].
    rewrite <- Hvv at 1.
    apply (header_view_valid m' buf _ _ _ _ Hnn Hs');
      unfold off_idx, off_size, off_orig_data_size, off_chksum;
      first [exact Hnew | rewrite Hother by lia; assumption].
Qed.

(** X10: after [set_fragment_payload_size] stored a size [v >= 0],
    [get_fragment_size] returns [v] plus the header size. *)
Theorem get_fragment_size_after_set_payload_size
    (m : mem) (buf : ptr) (v : Z) :
  buf <> NULL ->
  has_header m buf = true ->
  sentinel m buf = Some MAGIC ->
  0 <= v <= INT_MAX ->
  exists m',
    set_fragment_payload_size MAGIC buf v m = Ok 0 m' /\
    get_fragment_size buf m' = Ok (v + sizeof_fragment_header_t) m'.
Proof.
  intros Hnn Hh Hs Hv.
  destruct (set_header_field_step m buf off_size v
              "Invalid fragment header (size check)!" Hnn Hh Hs
              ltac:(unfold off_size; lia)
              ltac:(unfold off_size, sizeof_fragment_header_t; lia))
    as (m' & _ & _ & Hset & _ & _ & Hnew & _).
  exists m'. split; [exact Hset|].
  unfold get_fragment_size, bind, load_u32.
  rewrite (ptr_eqb_NULL_l _ Hnn), Hnew. unfold ret. f_equal.
  unfold INT_MAX in Hv. rewrite to_uint32_small by lia.
  unfold to_size_t, sizeof_fragment_header_t. apply Z.mod_small. lia.
Qed.

(** *** Validation *)

(** X11: [validate_fragment] returns 0 exactly on the non-null pointers
    whose sentinel reads as the magic constant, and -1 exactly on those
    whose sentinel reads as another value; it never changes the memory,
    and writes no diagnostic. *)
Theorem validate_fragment_spec (m : mem) (buf : ptr) :
  (validate_fragment MAGIC buf m = Ok 0 m
   <-> buf <> NULL /\ sentinel m buf = Some MAGIC) /\
  (validate_fragment MAGIC buf m = Ok (-1) m
   <-> buf <> NULL /\ exists s, sentinel m buf = Some s /\ s <> MAGIC) /\
  (forall r m', validate_fragment MAGIC buf m = Ok r m' -> m' = m).
Proof.
  unfold validate_fragment, bind, assert.
  destruct (ptr_eqb NULL buf) eqn:E.
  { apply ptr_eqb_eq in E. subst buf. cbn [negb abort].
    split; [|split].
    - split; [discriminate|]. intros [H _]. contradiction.
    - split; [discriminate|]. intros [H _]. contradiction.
    - discriminate. }
  assert (Hnn : buf <> NULL).
  { intros ->. cbn in E. discriminate. }
  cbn [negb ret].
  destruct (sentinel m buf) as [s|] eqn:Hs.
  - rewrite (magic_mismatch_eval _ _ _ _ Hs).
    destruct (s =? MAGIC) eqn:Heq; cbn [negb].
    + apply Z.eqb_eq in Heq. subst s. split; [|split].
      * split; [auto|reflexivity].
      * split; [discriminate|]. intros (_ & s & [= <-] & Hne). contradiction.
      * intros r m' [= _ <-]. reflexivity.
    + apply Z.eqb_neq in Heq. split; [|split].
      * split; [discriminate|]. intros [_ [= H]]. contradiction.
      * split; [eauto|reflexivity].
      * intros r m' [= _ <-]. reflexivity.
  - rewrite (magic_mismatch_unreadable _ _ _ Hs). split; [|split].
    + split; [discriminate|]. intros [_ H]. discriminate.
    + split; [discriminate|]. intros (_ & s & H & _). discriminate.
    + discriminate.
Qed.

(** Every getter, every setter and [validate_fragment] abort on the
    null pointer with a failed assertion, in every memory; they do not
    return -1 as [free_fragment_buffer] and [get_fragment_size] do. *)
Theorem accessors_assert_non_null (m : mem) (v : Z) :
  set_fragment_idx MAGIC NULL v m = Stuck AssertionFailure /\
  get_fragment_idx MAGIC NULL m = Stuck AssertionFailure /\
  set_fragment_payload_size MAGIC NULL v m = Stuck AssertionFailure /\
  get_fragment_payload_size MAGIC NULL m = Stuck AssertionFailure /\
  set_orig_data_size MAGIC NULL v m = Stuck AssertionFailure /\
  get_orig_data_size MAGIC NULL m = Stuck AssertionFailure /\
  set_chksum MAGIC NULL v m = Stuck AssertionFailure /\
  get_chksum MAGIC NULL m = Stuck AssertionFailure /\
  validate_fragment MAGIC NULL m = Stuck AssertionFailure /\
  free_fragment_buffer MAGIC NULL m = Ok (-1) m /\
  get_fragment_size NULL m = Ok (to_size_t (-1)) m.
Proof. repeat split; reflexivity. Qed.

(** X12: whenever [get_fragment_ptr_from_data] returns, it returns either
    its argument minus the header size, which then points to a sentinel
    that holds the magic constant, with the memory untouched; or the null
    pointer, the sentinel there holding another value, with nothing but the
    diagnostic log changed: the heap, the arrays and the allocator are as
    before and the log has the one message of the function appended. *)
Theorem get_fragment_ptr_from_data_sound
    (m m' : mem) (data p : ptr) :
  get_fragment_ptr_from_data MAGIC data m = Ok p m' ->
  (p = get_fragment_ptr_from_data_novalidate data /\ m' = m /\
   sentinel m p = Some MAGIC) \/
  (p = NULL /\ heap m' = heap m /\ avail m' = avail m /\
   arrays m' = arrays m /\
   errlog m' =
     errlog m ++ [String.append "Invalid fragment header (get header ptr)!" LF]
   /\
   m' = logged (String.append "Invalid fragment header (get header ptr)!" LF)
          m /\
   exists s,
     sentinel m (get_fragment_ptr_from_data_novalidate data) = Some s /\
     s <> MAGIC).
Proof.
  unfold get_fragment_ptr_from_data, get_fragment_ptr_from_data_novalidate,
    bind.
  set (frag := ptr_sub data sizeof_fragment_header_t).
  destruct (sentinel m frag) as [s|] eqn:Hs.
  - rewrite (magic_mismatch_eval _ _ _ _ Hs).
    destruct (s =? MAGIC) eqn:Heq; cbn [negb].
    + apply Z.eqb_eq in Heq. subst s. intros [= <- <-]. left. auto.
    + apply Z.eqb_neq in Heq. cbn [log_error ret]. intros [= <- <-].
      right. unfold logged. cbn [heap avail arrays errlog]. eauto 10.
  - rewrite (magic_mismatch_unreadable _ _ _ Hs). discriminate.
Qed.

(** *** Release *)

(** X13: [free_fragment_buffer], called with the data pointer of any live
    object that starts with an intact sentinel, returns 0, releases that
    object and no other, and gives its bytes back to the allocator.  If
    the header with the intact sentinel lies inside an object instead of
    at its start, the call passes the sentinel check and then frees a
    pointer that no allocation returned. *)
Theorem free_fragment_buffer_releases
    (m : mem) (b : nat) (bytes : list memval) :
  Ptr b 0 <> NULL ->
  heap m !! b = Some bytes ->
  (sentinel m (Ptr b 0) = Some MAGIC ->
   exists m2,
     free_fragment_buffer MAGIC (get_data_ptr_from_fragment (Ptr b 0)) m
       = Ok 0 m2 /\
     heap m2 = delete b (heap m) /\
     avail m2 = avail m + Z.of_nat (length bytes) /\
     errlog m2 = errlog m) /\
  (forall ofs,
     ofs <> 0 ->
     sentinel m (Ptr b ofs) = Some MAGIC ->
     free_fragment_buffer MAGIC (get_data_ptr_from_fragment (Ptr b ofs)) m
       = Stuck UndefinedBehaviour).
Proof.
  intros Hnn Hb. split.
  - intros Hs. rewrite (free_fragment_buffer_at_base MAGIC m b bytes Hnn Hb Hs).
    eexists. split; [reflexivity|]. auto.
  - intros ofs Hofs Hs.
    unfold free_fragment_buffer, bind, get_data_ptr_from_fragment.
    assert (H0 : 0 <= ofs).
    { unfold sentinel, ptr_add, off_magic in Hs.
      apply peek_u32_offset in Hs. lia. }
    assert (Hd : ptr_add (Ptr b ofs) sizeof_fragment_header_t <> NULL)
      by (unfold ptr_add, NULL, sizeof_fragment_header_t; intros [= _ ?];
          lia).
    rewrite (ptr_eqb_NULL_l _ Hd), ptr_sub_add.
    rewrite (magic_mismatch_eval _ _ _ _ Hs), Z.eqb_refl. cbn [negb].
    unfold free.
    assert (Hp : Ptr b ofs <> NULL) by (unfold NULL; intros [= _ ?]; lia).
    rewrite (ptr_eqb_NULL_r _ Hp), Hb.
    apply Z.eqb_neq in Hofs. rewrite Hofs. reflexivity.
Qed.


(** X15: [free_fragment_buffer] does not protect against a second call.
    In a memory with no object in the block of the null pointer, after a
    call that returned 0 the same call again reads the sentinel of the
    object just released, and so does [validate_fragment] on the fragment
    pointer. *)
Theorem free_fragment_buffer_twice (m m2 : mem) (data : ptr) :
  null_block_free m ->
  free_fragment_buffer MAGIC data m = Ok 0 m2 ->
  free_fragment_buffer MAGIC data m2 = Stuck UndefinedBehaviour /\
  validate_fragment MAGIC (get_fragment_ptr_from_data_novalidate data) m2
    = Stuck UndefinedBehaviour.
Proof.
  unfold null_block_free, get_fragment_ptr_from_data_novalidate.
  intros Hwf. unfold free_fragment_buffer at 1. unfold bind.
  destruct (ptr_eqb NULL data) eqn:Hn; [discriminate|].
  set (frag := ptr_sub data sizeof_fragment_header_t).
  destruct (sentinel m frag) as [s|] eqn:Hs.
  2: { rewrite (magic_mismatch_unreadable _ _ _ Hs). discriminate. }
  rewrite (magic_mismatch_eval _ _ _ _ Hs).
  destruct (negb (s =? MAGIC)); [discriminate|].
  destruct (free frag m) as [u m3|] eqn:Hf; [|discriminate].
  intros [= <-]. apply free_inv in Hf.
  destruct Hf as [[Hfrag _]|(b & bytes & Hfrag & Hb & Hdel)].
  - exfalso. rewrite Hfrag in Hs.
    unfold sentinel, ptr_add, NULL, peek_u32 in Hs.
    rewrite Hwf in Hs. discriminate.
  - assert (Hgone : sentinel m3 frag = None).
    { rewrite Hfrag. unfold sentinel, ptr_add, peek_u32.
      rewrite Hdel, lookup_delete_eq. reflexivity. }
    assert (Hb0 : frag <> NULL).
    { rewrite Hfrag. unfold NULL. intros [= ->]. congruence. }
    split.
    + unfold free_fragment_buffer, bind. rewrite Hn. fold frag.
      rewrite (magic_mismatch_unreadable _ _ _ Hgone). reflexivity.
    + unfold validate_fragment, bind, assert.
      rewrite (ptr_eqb_NULL_l _ Hb0). cbn [negb ret].
      rewrite (magic_mismatch_unreadable _ _ _ Hgone). reflexivity.
Qed.

End FragmentProperties.

(** ** Bulk resolution of data pointers, continued *)

Lemma count_non_null_bounds (l : list ptr) :
  0 <= count_non_null l <= Z.of_nat (length l).
Proof.
  induction l as [|p l IH]; cbn [count_non_null length]; [lia|].
  destruct (ptr_eqb p NULL); lia.
Qed.

Lemma count_non_null_full (l : list ptr) :
  count_non_null l = Z.of_nat (length l) <-> Forall (fun p => p <> NULL) l.
Proof.
  induction l as [|p l IH]; cbn [count_non_null length].
  - split; [constructor|reflexivity].
  - pose proof (count_non_null_bounds l) as Hb.
    destruct (ptr_eqb p NULL) eqn:E.
    + apply ptr_eqb_eq in E. split; [lia|].
      intros H. inversion H; subst. contradiction.
    + assert (Hp : p <> NULL)
        by (intros Hp; apply ptr_eqb_eq in Hp; congruence).
      split.
      * intros H. constructor; [exact Hp|]. apply IH. lia.
      * intros H. inversion H; subst. apply IH in H3. lia.
Qed.

(** The count never leaves the range the loop allows, whatever the loop
    reads. *)
Lemma data_ptr_array_loop_count (n : nat) :
  forall (data_array fragments : pptr) (i num r : Z) (m m' : mem),
    data_ptr_array_loop n data_array fragments i num m = Ok r m' ->
    num <= r <= num + Z.of_nat n.
Proof.
  induction n as [|n IH]; intros data_array fragments i num r m m'.
  - cbn [data_ptr_array_loop]. unfold ret. intros [= <- _]. lia.
  - cbn [data_ptr_array_loop]. unfold bind at 1.
    destruct (load_ptr fragments i m) as [frag m1|]; [|discriminate].
    destruct (ptr_eqb frag NULL).
    + unfold bind at 1.
      destruct (store_ptr data_array i NULL m1) as [u m2|]; [|discriminate].
      intros H. apply IH in H. lia.
    + unfold bind at 1.
      destruct (store_ptr data_array i (get_data_ptr_from_fragment frag) m1)
        as [u m2|]; [|discriminate].
      intros H. apply IH in H. lia.
Qed.

(** X16: with [num_fragments] zero or negative,
    [get_data_ptr_array_from_fragments] returns 0 without reading or
    writing any array, whatever its array arguments are. *)
Theorem get_data_ptr_array_from_fragments_none
    (m : mem) (data_array fragments : pptr) (num_fragments : Z) :
  num_fragments <= 0 ->
  get_data_ptr_array_from_fragments data_array fragments num_fragments m
    = Ok 0 m.
Proof.
  intros H. unfold get_data_ptr_array_from_fragments.
  replace (Z.to_nat num_fragments) with 0%nat by lia. reflexivity.
Qed.

(** X17: the count [get_data_ptr_array_from_fragments] returns lies
    between 0 and [num_fragments] in every call that returns, overlapping
    arrays included.  When no write hits an entry of [fragments] that is
    still to be read, the call returns, and the count equals
    [num_fragments] exactly when none of the fragment pointers is null. *)
Theorem resolved_count_bounds :
  (forall m data_array fragments num_fragments r m',
     get_data_ptr_array_from_fragments data_array fragments num_fragments m
       = Ok r m' ->
     0 <= r <= Z.max 0 num_fragments) /\
  (forall m da fa dpos fpos n fl dl,
     arrays m !! fa = Some fl ->
     arrays m !! da = Some dl ->
     (fpos + n <= length fl)%nat ->
     (dpos + n <= length dl)%nat ->
     writes_spare_pending_reads (PPtr da (Z.of_nat dpos))
       (PPtr fa (Z.of_nat fpos)) (Z.of_nat n) ->
     exists r m',
       get_data_ptr_array_from_fragments (PPtr da (Z.of_nat dpos))
         (PPtr fa (Z.of_nat fpos)) (Z.of_nat n) m = Ok r m' /\
       0 <= r <= Z.of_nat n /\
       (r = Z.of_nat n
        <-> Forall (fun p => p <> NULL) (take n (drop fpos fl)))).
Proof.
  split.
  - intros m data_array fragments num_fragments r m' H.
    apply data_ptr_array_loop_count in H. lia.
  - intros m da fa dpos fpos n fl dl Hf Hd Hlf Hld Hclear.
    rewrite (get_data_ptr_array_from_fragments_run m da fa dpos fpos n fl dl
               Hf Hd Hlf Hld Hclear).
    eexists _, _. split; [reflexivity|].
    set (fs := take n (drop fpos fl)).
    assert (Hlen : length fs = n)
      by (unfold fs; rewrite length_take, length_drop; lia).
    pose proof (count_non_null_bounds fs) as Hb.
    pose proof (count_non_null_full fs) as Hfull.
    rewrite Hlen in Hb, Hfull. split; [exact Hb|exact Hfull].
Qed.

Section BulkValidation.

Variable MAGIC : Z.

(** X18: the data pointers [get_data_ptr_array_from_fragments] writes
    lead back to the fragments.  When no write hits an entry of
    [fragments] that is still to be read, then for a non-null fragment
    pointer [fragments[i]] the entry [data_array[i]] after the call
    converts back to it with [get_fragment_ptr_from_data_novalidate], and,
    when the sentinel of the fragment is intact, with the validating
    [get_fragment_ptr_from_data] in the memory the call leaves. *)
Theorem resolved_pointers_lead_back
    (m : mem) (da fa dpos fpos n : nat) (fl dl : list ptr) (i : nat)
    (frag : ptr) :
  arrays m !! fa = Some fl ->
  arrays m !! da = Some dl ->
  (fpos + n <= length fl)%nat ->
  (dpos + n <= length dl)%nat ->
  writes_spare_pending_reads (PPtr da (Z.of_nat dpos))
    (PPtr fa (Z.of_nat fpos)) (Z.of_nat n) ->
  (i < n)%nat ->
  fl !! (fpos + i)%nat = Some frag ->
  frag <> NULL ->
  exists r m' out d,
    get_data_ptr_array_from_fragments (PPtr da (Z.of_nat dpos))
      (PPtr fa (Z.of_nat fpos)) (Z.of_nat n) m = Ok r m' /\
    arrays m' !! da = Some out /\
    out !! (dpos + i)%nat = Some d /\
    load_ptr (PPtr da (Z.of_nat dpos)) (Z.of_nat i) m' = Ok d m' /\
    get_fragment_ptr_from_data_novalidate d = frag /\
    (sentinel m frag = Some MAGIC ->
     get_fragment_ptr_from_data MAGIC d m' = Ok frag m').
Proof.
  intros Hf Hd Hlf Hld Hclear Hi Hfrag Hnn.
  rewrite (get_data_ptr_array_from_fragments_run m da fa dpos fpos n fl dl
             Hf Hd Hlf Hld Hclear).
  set (fs := take n (drop fpos fl)).
  set (out := take dpos dl ++ (data_ptr_of <$> fs) ++ drop (dpos + n) dl).
  set (m' := set_arrays _ m).
  assert (Harr : arrays m' !! da = Some out) by apply lookup_insert_eq.
  assert (Hout : out !! (dpos + i)%nat
                 = Some (get_data_ptr_from_fragment frag)).
  { assert (Hpre : length (take dpos dl) = dpos)
      by (rewrite length_take; lia).
    assert (Hlen : length (data_ptr_of <$> fs) = n)
      by (unfold fs; rewrite length_fmap, length_take, length_drop; lia).
    unfold out. rewrite lookup_app_r by lia.
    rewrite Hpre, lookup_app_l by lia.
    replace (dpos + i - dpos)%nat with i by lia.
    unfold fs.
    rewrite list_lookup_fmap, lookup_take_lt, lookup_drop, Hfrag by lia.
    cbn. unfold data_ptr_of. rewrite (ptr_eqb_NULL_r _ Hnn). reflexivity. }
  exists (count_non_null fs), m', out, (get_data_ptr_from_fragment frag).
  split; [reflexivity|]. split; [exact Harr|]. split; [exact Hout|].
  split; [exact (load_ptr_eval m' da dpos out i _ Harr Hout)|].
  split; [apply ptr_sub_add|].
  intros Hs. unfold get_fragment_ptr_from_data, get_data_ptr_from_fragment,
    bind.
  rewrite ptr_sub_add.
  assert (Hs' : sentinel m' frag = Some MAGIC) by exact Hs.
  rewrite (magic_mismatch_eval _ _ _ _ Hs'), Z.eqb_refl. reflexivity.
Qed.

End BulkValidation.

(** ** Data alignment, continued *)

Section AlignmentFurther.

Variable CAUCHY : Z.
Variable sizeof_long : Z.

(** The value the function computes where it is defined. *)
Lemma get_aligned_data_size_value (instance : ec_backend) (data_len : Z) :
  0 < sizeof_long ->
  0 < granularity CAUCHY sizeof_long instance <= INT_MAX ->
  0 <= data_len <= INT_MAX ->
  rounded_up (granularity CAUCHY sizeof_long instance) data_len <= INT_MAX ->
  get_aligned_data_size CAUCHY sizeof_long instance data_len
    = Some (rounded_up (granularity CAUCHY sizeof_long instance) data_len).
Proof.
  unfold rounded_up. intros Hsl Hg Hd Hfit.
  set (g := granularity CAUCHY sizeof_long instance) in *.
  set (n := (data_len + g - 1) / g) in *.
  change (get_aligned_data_size CAUCHY sizeof_long instance data_len)
    with (am ← alignment_multiple_of CAUCHY sizeof_long instance;
          q ← Double.to_int
                (Double.ceill
                   (Double.div (Double.of_int data_len) (Double.of_int am)));
          int_mul q am).
  rewrite alignment_multiple_granularity by assumption. fold g.
  cbn [mbind option_bind].
  rewrite DoubleFacts.ceill_div_of_int by lia. fold n.
  assert (Hn : 0 <= n) by (apply Z.div_pos; lia).
  assert (Hn' : n <= INT_MAX) by (unfold INT_MAX in *; nia).
  unfold Double.to_int, int_rangeb.
  assert (H1 : (INT_MIN <=? n) = true)
    by (apply Z.leb_le; unfold INT_MIN; lia).
  assert (H2 : (n <=? INT_MAX) = true) by (apply Z.leb_le; exact Hn').
  rewrite H1, H2. cbn [andb option_bind].
  apply int_mul_small. unfold int_range, INT_MIN. nia.
Qed.

Lemma round_up_bounds (g d : Z) :
  0 < g -> d <= (d + g - 1) / g * g < d + g.
Proof.
  intros Hg.
  pose proof (Z.div_mod (d + g - 1) g ltac:(lia)).
  pose proof (Z.mod_pos_bound (d + g - 1) g Hg). lia.
Qed.

Lemma round_up_multiple (g j : Z) : 0 < g -> (j * g + g - 1) / g * g = j * g.
Proof.
  intros Hg. f_equal. symmetry.
  apply (Z.div_unique _ _ _ (g - 1)); lia.
Qed.

(** X19: where it is defined, the aligned size exceeds [data_len] by less
    than one granule, and splits into k equal parts that are each a whole
    number of units: of words of [w / 8] bytes, or, for Cauchy
    Reed-Solomon, of packets of [w * (sizeof(long) * 128)] bytes. *)
Theorem aligned_size_padding_and_split
    (instance : ec_backend) (data_len : Z) :
  0 < sizeof_long ->
  0 < granularity CAUCHY sizeof_long instance <= INT_MAX ->
  0 <= data_len <= INT_MAX ->
  rounded_up (granularity CAUCHY sizeof_long instance) data_len <= INT_MAX ->
  exists r part,
    get_aligned_data_size CAUCHY sizeof_long instance data_len = Some r /\
    data_len <= r < data_len + granularity CAUCHY sizeof_long instance /\
    r = uargs_k instance * part /\
    ((if CAUCHY =? common_id instance
      then uargs_w instance * (sizeof_long * 128)
      else Z.quot (uargs_w instance) 8) | part).
Proof.
  unfold rounded_up. intros Hsl Hg Hd Hfit.
  rewrite get_aligned_data_size_value by assumption. unfold rounded_up.
  set (g := granularity CAUCHY sizeof_long instance) in *.
  set (n := (data_len + g - 1) / g).
  exists (n * g),
    (n * (if CAUCHY =? common_id instance
          then uargs_w instance * (sizeof_long * 128)
          else Z.quot (uargs_w instance) 8)).
  split; [reflexivity|].
  split; [apply round_up_bounds; lia|].
  split; [|exists n; reflexivity].
  unfold g, granularity.
  destruct (CAUCHY =? common_id instance); lia.
Qed.

(** X20: a length that is already a multiple of the granularity is
    returned as it is, and aligning a second time changes nothing. *)
Theorem aligned_size_idempotent (instance : ec_backend) (data_len : Z) :
  0 < sizeof_long ->
  0 < granularity CAUCHY sizeof_long instance <= INT_MAX ->
  0 <= data_len <= INT_MAX ->
  rounded_up (granularity CAUCHY sizeof_long instance) data_len <= INT_MAX ->
  ((granularity CAUCHY sizeof_long instance | data_len) ->
   get_aligned_data_size CAUCHY sizeof_long instance data_len
     = Some data_len) /\
  (get_aligned_data_size CAUCHY sizeof_long instance data_len
     ≫= get_aligned_data_size CAUCHY sizeof_long instance)
  = get_aligned_data_size CAUCHY sizeof_long instance data_len.
Proof.
  intros Hsl Hg Hd Hfit.
  rewrite (get_aligned_data_size_value instance data_len Hsl Hg Hd Hfit).
  unfold rounded_up in *.
  set (g := granularity CAUCHY sizeof_long instance) in *. split.
  - intros [j ->]. rewrite round_up_multiple by lia. reflexivity.
  - set (n := (data_len + g - 1) / g) in *.
    cbn [mbind option_bind].
    assert (Hn : 0 <= n) by (apply Z.div_pos; lia).
    assert (Hup : rounded_up g (n * g) = n * g)
      by (apply round_up_multiple; lia).
    rewrite get_aligned_data_size_value;
      fold g; rewrite ?Hup; try assumption; try reflexivity.
    nia.
Qed.

(** X21: the aligned size grows with the length. *)
Theorem aligned_size_monotone (instance : ec_backend) (d1 d2 : Z) :
  0 < sizeof_long ->
  0 < granularity CAUCHY sizeof_long instance <= INT_MAX ->
  0 <= d1 <= d2 ->
  d2 <= INT_MAX ->
  rounded_up (granularity CAUCHY sizeof_long instance) d2 <= INT_MAX ->
  exists r1 r2,
    get_aligned_data_size CAUCHY sizeof_long instance d1 = Some r1 /\
    get_aligned_data_size CAUCHY sizeof_long instance d2 = Some r2 /\
    r1 <= r2.
Proof.
  intros Hsl Hg Hd Hd2 Hfit.
  set (g := granularity CAUCHY sizeof_long instance) in *.
  assert (Hq : (d1 + g - 1) / g <= (d2 + g - 1) / g)
    by (apply Z.div_le_mono; lia).
  assert (Hle : rounded_up g d1 <= rounded_up g d2)
    by (unfold rounded_up; nia).
  rewrite !get_aligned_data_size_value by (fold g; assumption || lia).
  fold g. eexists _, _. split; [reflexivity|]. split; [reflexivity|].
  exact Hle.
Qed.

(** X22: no guard protects the division.  When k is 0, or the word size
    [w / 8] of a non-Cauchy backend is 0, or w is 0 on the Cauchy backend,
    the alignment multiple is 0, the quotient is infinite or not a number,
    and its conversion to [int] is undefined, for every [data_len]. *)
Theorem aligned_size_undefined_for_zero_multiple
    (instance : ec_backend) (data_len : Z) :
  uargs_k instance = 0 \/
  ((CAUCHY =? common_id instance) = false /\ -8 < uargs_w instance < 8) \/
  ((CAUCHY =? common_id instance) = true /\ uargs_w instance = 0) ->
  get_aligned_data_size CAUCHY sizeof_long instance data_len = None.
Proof.
  intros H.
  assert (Ham : alignment_multiple_of CAUCHY sizeof_long instance = Some 0).
  { unfold alignment_multiple_of.
    destruct H as [Hk|[[Hc Hw]|[Hc Hw]]].
    - rewrite Hk. destruct (CAUCHY =? common_id instance); reflexivity.
    - rewrite Hc.
      assert (Hq : Z.quot (uargs_w instance) 8 = 0).
      { destruct (Z_le_gt_dec 0 (uargs_w instance)).
        - apply Z.quot_small. lia.
        - apply Z.opp_inj. rewrite <- Z.quot_opp_l by lia.
          apply Z.quot_small. lia. }
      rewrite Hq. unfold int_mul. rewrite Z.mul_0_r. reflexivity.
    - rewrite Hc, Hw. unfold int_mul. rewrite Z.mul_0_r. reflexivity. }
  change (get_aligned_data_size CAUCHY sizeof_long instance data_len)
    with (am ← alignment_multiple_of CAUCHY sizeof_long instance;
          q ← Double.to_int
                (Double.ceill
                   (Double.div (Double.of_int data_len) (Double.of_int am)));
          int_mul q am).
  rewrite Ham. cbn [mbind option_bind].
  change (Double.of_int 0) with (S754_zero false).
  destruct (Double.of_int data_len) as [s|s| |s mx ex]; reflexivity.
Qed.

End AlignmentFurther.

(** ** The further properties on sample inputs *)

Module FurtherExamples.

Import Sample MoreSamples.

(** Hypotheses on closed terms are settled by evaluation. *)
Ltac settle :=
  lazymatch goal with
  | |- _ <> _ => discriminate
  | |- _ = _ => vm_compute; reflexivity
  | |- int_range _ => unfold int_range, INT_MIN, INT_MAX; lia
  | |- (_ <= _)%nat => vm_compute; lia
  | |- (_ < _)%nat => vm_compute; lia
  | |- _ => unfold INT_MAX; vm_compute; repeat split; discriminate
  end.

Lemma get_aligned_buffer16_zeroed_witness :
  exists m1,
    get_aligned_buffer16 16 empty = Ok (Ptr 1 0) m1 /\
    heap m1 !! 1%nat = Some (replicate 16 (Byte x00)).
Proof.
  destruct (get_aligned_buffer16_zeroed empty 16)
    as (b & m1 & H & _ & _ & Hb & _); [settle | settle |].
  assert (Hb1 : b = 1%nat) by (vm_compute in H; congruence).
  subst b. exists m1. split; [exact H | exact Hb].
Defined.

Lemma aligned_allocators_never_return_null_witness :
  avail empty < to_size_t (-1) /\
  get_aligned_buffer16 (-1) empty = Stuck UndefinedBehaviour /\
  avail empty < fragment_alloc_size 5000 /\
  alloc_fragment_buffer MAGIC 5000 empty = Stuck UndefinedBehaviour.
Proof.
  destruct (aligned_allocators_never_return_null MAGIC empty (-1))
    as (_ & H1 & _ & _).
  destruct (aligned_allocators_never_return_null MAGIC empty 5000)
    as (_ & _ & _ & H2).
  split; [settle|]. split; [apply H1; settle|].
  split; [settle|]. apply H2. settle.
Defined.

Lemma alloc_and_set_buffer_spec_witness :
  (exists m1,
     alloc_and_set_buffer 8 255 empty = Ok (Ptr 1 0) m1 /\
     heap m1 !! 1%nat = Some (replicate 8 (Byte xff))) /\
  alloc_and_set_buffer 5000 255 empty = Ok NULL empty.
Proof.
  split.
  - destruct (alloc_and_set_buffer_spec empty 8 255) as [Hok _]; [settle|].
    destruct Hok as (b & m1 & H & _ & _ & Hb & _); [settle|].
    assert (Hb1 : b = 1%nat) by (vm_compute in H; congruence).
    subst b. exists m1. split; [exact H | exact Hb].
  - destruct (alloc_and_set_buffer_spec empty 5000 255) as [_ Hfail];
      [settle|].
    apply Hfail. settle.
Defined.

Lemma alloc_zeroed_then_check_and_free_witness :
  exists m2,
    (do buf <- alloc_zeroed_buffer 8; check_and_free_buffer buf) empty
      = Ok NULL m2 /\
    heap m2 = heap empty /\ avail m2 = avail empty.
Proof. apply (alloc_zeroed_then_check_and_free empty 8). settle. Defined.

Lemma check_and_free_buffer_spec_witness :
  exists m',
    check_and_free_buffer frag with_fragment = Ok NULL m' /\
    heap m' = delete 1%nat (heap with_fragment).
Proof.
  destruct (check_and_free_buffer_spec with_fragment 1
              (list_inserts 0 (encode_u32 MAGIC) (replicate 40 (Byte x00))))
    as (_ & _ & H).
  destruct H as (m' & H1 & H2 & _); [settle | settle |].
  exists m'. split; [exact H1 | exact H2].
Defined.

Lemma alloc_fragment_buffer_succeeds_witness :
  exists m1,
    alloc_fragment_buffer MAGIC 8 empty = Ok (Ptr 1 0) m1 /\
    sentinel m1 (Ptr 1 0) = Some MAGIC /\
    avail m1 = 4096 - 40.
Proof.
  destruct (alloc_fragment_buffer_succeeds MAGIC ltac:(settle) empty 8)
    as (b & m1 & bytes & H & _ & _ & _ & _ & Hs & _ & Ha);
    [settle | settle |].
  assert (Hb1 : b = 1%nat) by (vm_compute in H; congruence).
  subst b. exists m1. split; [exact H|]. split; [exact Hs | exact Ha].
Defined.

Lemma fresh_fragment_is_zeroed_witness :
  header_view MAGIC frag with_fragment = Some (0, 0, 0, 0) /\
  get_fragment_size frag with_fragment = Ok 32 with_fragment.
Proof.
  destruct (fresh_fragment_is_zeroed MAGIC ltac:(settle) empty with_fragment
              8 frag) as (H1 & H2 & _); [settle | settle |].
  split; [exact H1 | exact H2].
Defined.

Lemma alloc_fragment_buffer_header_overflow_witness :
  alloc_fragment_buffer MAGIC (-32) empty = Stuck UndefinedBehaviour.
Proof.
  apply (alloc_fragment_buffer_header_overflow MAGIC empty (-32)); settle.
Defined.

Lemma setters_update_one_field_witness :
  header_view MAGIC frag with_fragment = Some (0, 0, 0, 0) /\
  exists m', set_orig_data_size MAGIC frag 77 with_fragment = Ok 0 m' /\
             header_view MAGIC frag m' = Some (0, 0, 77, 0).
Proof.
  split; [settle|].
  destruct (setters_update_one_field MAGIC with_fragment frag 0 0 0 0 77)
    as (_ & _ & (m' & H1 & _ & H2) & _);
    [settle | settle | settle | settle | settle |].
  exists m'. split; [exact H1 | exact H2].
Defined.

Lemma get_fragment_size_after_set_payload_size_witness :
  exists m',
    set_fragment_payload_size MAGIC frag 8 with_fragment = Ok 0 m' /\
    get_fragment_size frag m' = Ok 40 m'.
Proof.
  apply (get_fragment_size_after_set_payload_size MAGIC with_fragment frag 8);
    settle.
Defined.

Lemma validate_fragment_spec_witness :
  validate_fragment MAGIC frag with_fragment = Ok 0 with_fragment /\
  validate_fragment MAGIC frag tampered = Ok (-1) tampered.
Proof.
  split.
  - apply (proj1 (validate_fragment_spec MAGIC with_fragment frag)).
    split; settle.
  - apply (proj1 (proj2 (validate_fragment_spec MAGIC tampered frag))).
    split; [settle|]. exists 0. split; settle.
Defined.

Lemma get_fragment_ptr_from_data_sound_witness :
  (get_fragment_ptr_from_data MAGIC (Ptr 1 32) with_fragment
     = Ok frag with_fragment /\
   sentinel with_fragment frag = Some MAGIC) /\
  (get_fragment_ptr_from_data MAGIC (Ptr 1 32) tampered
     = Ok NULL
         (logged (String.append "Invalid fragment header (get header ptr)!" LF)
            tampered) /\
   exists s,
     sentinel tampered (get_fragment_ptr_from_data_novalidate (Ptr 1 32))
       = Some s /\
     s <> MAGIC).
Proof.
  split; (split; [settle|]).
  - destruct (get_fragment_ptr_from_data_sound MAGIC with_fragment
                with_fragment (Ptr 1 32) frag) as [(_ & _ & H)|(H & _)];
      [settle | exact H | discriminate H].
  - destruct (get_fragment_ptr_from_data_sound MAGIC tampered
                (logged
                   (String.append "Invalid fragment header (get header ptr)!"
                      LF) tampered)
                (Ptr 1 32) NULL)
      as [(_ & H & _)|(_ & _ & _ & _ & _ & _ & H)];
      [settle | discriminate H | exact H].
Defined.

Lemma free_fragment_buffer_releases_witness :
  (exists m2,
     free_fragment_buffer MAGIC (Ptr 1 32) with_fragment = Ok 0 m2 /\
     heap m2 = delete 1%nat (heap with_fragment)) /\
  sentinel embedded (Ptr 1 16) = Some MAGIC /\
  free_fragment_buffer MAGIC (Ptr 1 48) embedded = Stuck UndefinedBehaviour.
Proof.
  split; [|split; [settle|]].
  - destruct (free_fragment_buffer_releases MAGIC with_fragment 1
                (list_inserts 0 (encode_u32 MAGIC)
                   (replicate 40 (Byte x00)))) as [H _];
      [settle | settle |].
    destruct H as (m2 & H1 & H2 & _); [settle|].
    exists m2. split; [exact H1 | exact H2].
  - destruct (free_fragment_buffer_releases MAGIC embedded 1
                (list_inserts 16 (encode_u32 MAGIC)
                   (replicate 64 (Byte x00)))) as [_ H];
      [settle | settle |].
    apply (H 16); settle.
Defined.


Lemma free_fragment_buffer_twice_witness :
  free_fragment_buffer MAGIC (Ptr 1 32) with_fragment = Ok 0 released /\
  free_fragment_buffer MAGIC (Ptr 1 32) released = Stuck UndefinedBehaviour.
Proof.
  split; [settle|].
  apply (free_fragment_buffer_twice MAGIC with_fragment released (Ptr 1 32));
    settle.
Defined.

Lemma get_data_ptr_array_from_fragments_none_witness :
  get_data_ptr_array_from_fragments (PPtr 1 0) (PPtr 0 0) (-3) stripe
    = Ok 0 stripe.
Proof.
  apply (get_data_ptr_array_from_fragments_none stripe (PPtr 1 0) (PPtr 0 0)
           (-3)).
  lia.
Defined.

Lemma resolved_count_bounds_witness :
  exists m',
    get_data_ptr_array_from_fragments (PPtr 1 0) (PPtr 0 0) 3 stripe
      = Ok 2 m' /\
    0 <= 2 <= Z.max 0 3 /\
    ~ Forall (fun p => p <> NULL) [Ptr 1 0; NULL; Ptr 2 0].
Proof.
  destruct resolved_count_bounds as [Hany Hspare].
  destruct (Hspare stripe 1%nat 0%nat 0%nat 0%nat 3%nat
              [Ptr 1 0; NULL; Ptr 2 0] [NULL; NULL; NULL])
    as (r & m' & H & _ & Hiff);
    [settle | settle | settle | settle | left; lia |].
  assert (Hr : r = 2) by (vm_compute in H; congruence).
  subst r. exists m'. split; [exact H|].
  split; [exact (Hany _ _ _ _ _ _ H)|].
  intros Hall. apply Hiff in Hall. discriminate Hall.
Defined.

Lemma resolved_pointers_lead_back_witness :
  exists r m' out d,
    get_data_ptr_array_from_fragments (PPtr 1 0) (PPtr 0 0) 3 stripe
      = Ok r m' /\
    arrays m' !! 1%nat = Some out /\
    out !! 2%nat = Some d /\
    get_fragment_ptr_from_data_novalidate d = Ptr 2 0.
Proof.
  destruct (resolved_pointers_lead_back MAGIC stripe 1 0 0 0 3
              [Ptr 1 0; NULL; Ptr 2 0] [NULL; NULL; NULL] 2 (Ptr 2 0))
    as (r & m' & out & d & H1 & H2 & H3 & _ & H4 & _);
    [settle | settle | settle | settle | left; lia | settle | settle
    | settle |].
  exists r, m', out, d. auto.
Defined.

Lemma aligned_size_padding_and_split_witness :
  exists r part,
    get_aligned_data_size CAUCHY sizeof_long cauchy 100 = Some r /\
    100 <= r < 100 + 32768 /\
    r = 4 * part /\ (8 * (8 * 128) | part).
Proof.
  apply (aligned_size_padding_and_split CAUCHY sizeof_long cauchy 100);
    settle.
Defined.

Lemma aligned_size_idempotent_witness :
  get_aligned_data_size CAUCHY sizeof_long (backend 8) 80 = Some 80 /\
  (get_aligned_data_size CAUCHY sizeof_long (backend 8) 77
     ≫= get_aligned_data_size CAUCHY sizeof_long (backend 8))
  = get_aligned_data_size CAUCHY sizeof_long (backend 8) 77.
Proof.
  split.
  - destruct (aligned_size_idempotent CAUCHY sizeof_long (backend 8) 80)
      as [H _]; [settle | settle | settle | settle |].
    apply H. exists 8. reflexivity.
  - apply (aligned_size_idempotent CAUCHY sizeof_long (backend 8) 77);
      settle.
Defined.

Lemma aligned_size_monotone_witness :
  exists r1 r2,
    get_aligned_data_size CAUCHY sizeof_long (backend 8) 77 = Some r1 /\
    get_aligned_data_size CAUCHY sizeof_long (backend 8) 81 = Some r2 /\
    r1 <= r2.
Proof.
  apply (aligned_size_monotone CAUCHY sizeof_long (backend 8) 77 81); settle.
Defined.

Lemma aligned_size_undefined_for_zero_multiple_witness :
  get_aligned_data_size CAUCHY sizeof_long (backend 4) 0 = None.
Proof.
  apply (aligned_size_undefined_for_zero_multiple CAUCHY sizeof_long
           (backend 4) 0).
  right. left. split; [reflexivity | cbn; lia].
Defined.

End FurtherExamples.
